(** * A shallow embedding of the free-list allocator of src/src/alloc.c

    The allocator keeps a singly linked free list (global [HEAD]) of blocks,
    each preceded by a header [free_block { size_t size; free_block *next; }],
    and grows or shrinks the heap with [sbrk].

    Machine model (x86-64, LP64, gcc):
    - [size_t] values and pointers are integers in [0, 2^64), arithmetic on
      them wraps modulo 2^64 ([wrap]); [int] is 32 bits and the conversion of
      a [size_t] to [int] keeps the low 32 bits as a two's complement value
      ([to_int]); [sizeof(free_block)] is 16 ([HDR]); NULL is 0.
    - Memory is split into the block headers ([hdrs], address of a header to
      its two fields) and the payload bytes ([mem]).  A header field never
      written reads as 0, and so does a payload byte never written.  The
      split is exact as long as no payload covers a live header.  The [int]
      parameter of [split] breaks that: a truncated split leaves a head whose
      header lies inside a payload still in use, so a later block can be
      handed out over another block's header, and a client store into that
      payload then rewrites the header in C but not here.  The states of
      [reachable] are therefore only those the model reaches; a C heap the
      model cannot reach this way is written out as a state ([linked_pair]).
    - [sbrk incr] moves the break to [brk + incr] when the result stays in
      [[brk_base, brk_limit]] and returns the old break, and otherwise
      returns [(void * )-1] and changes nothing.
    - The loops of the source ([while (curr != NULL)]) run on a [fuel]
      argument; running out of fuel stands for non-termination, and the
      whole operation then yields [None]. *)

From Stdlib Require Import ZArith Lia.
From stdpp Require Import base gmap list.

Open Scope Z_scope.

Module Alloc.

(** ** Machine arithmetic *)

Definition W : Z := 2 ^ 64.

(** [size_t] and pointer arithmetic. *)
Definition wrap (z : Z) : Z := z mod W.

(** [(int) u] for a [size_t] value [u] (implementation-defined; gcc keeps
    the low 32 bits). *)
Definition to_int (u : Z) : Z :=
  let m := u mod 2 ^ 32 in if m <? 2 ^ 31 then m else m - 2 ^ 32.

(** [(intptr_t) u] for a [size_t] value [u]: the parameter type of [sbrk]. *)
Definition to_intptr (u : Z) : Z := if u <? 2 ^ 63 then u else u - W.

Definition NULL : Z := 0.

(** [sizeof(free_block)] *)
Definition HDR : Z := 16.

(** [(void * ) -1], the error result of [sbrk] *)
Definition SBRK_ERR : Z := wrap (-1).

(** ** State *)

Record free_block := mk_block { size : Z; next : Z }.

#[global] Instance free_block_eq_dec : EqDecision free_block.
Proof. solve_decision. Defined.

Record state := mk_state {
  HEAD : Z;
  hdrs : gmap Z free_block;
  mem : gmap Z Z;
  brk : Z;
  brk_base : Z;
  brk_limit : Z
}.

Definition get_hdr (s : state) (a : Z) : free_block :=
  default (mk_block 0 0) (hdrs s !! a).

Definition read_byte (s : state) (a : Z) : Z := default 0 (mem s !! a).

Definition set_HEAD_s (h : Z) (s : state) : state :=
  mk_state h (hdrs s) (mem s) (brk s) (brk_base s) (brk_limit s).
Definition set_hdrs_s (m : gmap Z free_block) (s : state) : state :=
  mk_state (HEAD s) m (mem s) (brk s) (brk_base s) (brk_limit s).
Definition set_mem_s (m : gmap Z Z) (s : state) : state :=
  mk_state (HEAD s) (hdrs s) m (brk s) (brk_base s) (brk_limit s).
Definition set_brk_s (b : Z) (s : state) : state :=
  mk_state (HEAD s) (hdrs s) (mem s) b (brk_base s) (brk_limit s).

(** The process before the first call: empty free list, break at its base. *)
Definition init_state (base limit : Z) : state :=
  mk_state NULL ∅ ∅ base base limit.

(** ** A state monad with non-termination *)

Definition M (A : Type) : Type := state -> option (A * state).

Definition ret {A} (x : A) : M A := fun s => Some (x, s).

Definition bind {A B} (m : M A) (k : A -> M B) : M B :=
  fun s => match m s with Some (x, s1) => k x s1 | None => None end.

Definition diverge {A} : M A := fun _ => None.

Notation "'let*' x ':=' m 'in' k" := (bind m (fun x => k))
  (at level 200, x name, m at level 100, k at level 200).

Definition get_HEAD : M Z := fun s => Some (HEAD s, s).
Definition set_HEAD (h : Z) : M unit := fun s => Some (tt, set_HEAD_s h s).
Definition read_hdr (a : Z) : M free_block := fun s => Some (get_hdr s a, s).

(** [a->size = v] *)
Definition write_size (a v : Z) : M unit := fun s =>
  Some (tt, set_hdrs_s (<[a := mk_block v (next (get_hdr s a))]> (hdrs s)) s).

(** [a->next = v] *)
Definition write_next (a v : Z) : M unit := fun s =>
  Some (tt, set_hdrs_s (<[a := mk_block (size (get_hdr s a)) v]> (hdrs s)) s).

Definition load_byte (a : Z) : M Z := fun s => Some (read_byte s a, s).

Definition write_byte (a v : Z) : M unit := fun s =>
  Some (tt, set_mem_s (<[a := v]> (mem s)) s).

Definition sbrk (incr : Z) : M Z := fun s =>
  let nb := brk s + incr in
  if (brk_base s <=? nb) && (nb <=? brk_limit s)
  then Some (brk s, set_brk_s nb s)
  else Some (SBRK_ERR, s).

(** [memset(p, v, n)] *)
Fixpoint memset_loop (p v : Z) (n : nat) : M unit :=
  match n with
  | O => ret tt
  | S n' => let* _ := write_byte (wrap p) v in memset_loop (p + 1) v n'
  end.
Definition memset (p v n : Z) : M unit := memset_loop p v (Z.to_nat n).

(** [memcpy(dst, src, n)] *)
Fixpoint memcpy_loop (dst src : Z) (n : nat) : M unit :=
  match n with
  | O => ret tt
  | S n' =>
      let* v := load_byte (wrap src) in
      let* _ := write_byte (wrap dst) v in
      memcpy_loop (dst + 1) (src + 1) n'
  end.
Definition memcpy (dst src n : Z) : M unit := memcpy_loop dst src (Z.to_nat n).

(** ** The allocator, function by function *)

(** [split(block, size)]: note the [int] parameter. *)
Definition split (block size_arg : Z) : M Z :=
  let* b := read_hdr block in
  if size b <? wrap (size_arg + HDR) then ret NULL else
  let split_pnt := wrap (block + size_arg + HDR) in
  let* b1 := read_hdr block in
  let* _ := write_size split_pnt (wrap (size b1 - size_arg - HDR)) in
  let* b2 := read_hdr block in
  let* _ := write_next split_pnt (next b2) in
  let* _ := write_size block (wrap size_arg) in
  ret block.

(** [find_prev(block)]: the list entry whose end is [block]. *)
Fixpoint find_prev_loop (fuel : nat) (curr block : Z) : M Z :=
  match fuel with
  | O => diverge
  | S f =>
      if curr =? NULL then ret NULL else
      let* c := read_hdr curr in
      if wrap (curr + size c + HDR) =? block then ret curr
      else find_prev_loop f (next c) block
  end.
Definition find_prev (fuel : nat) (block : Z) : M Z :=
  let* h := get_HEAD in find_prev_loop fuel h block.

(** [find_next(block)]: the list entry starting at the end of [block]. *)
Fixpoint find_next_loop (fuel : nat) (curr block_end : Z) : M Z :=
  match fuel with
  | O => diverge
  | S f =>
      if curr =? NULL then ret NULL else
      if curr =? block_end then ret curr else
      let* c := read_hdr curr in
      find_next_loop f (next c) block_end
  end.
Definition find_next (fuel : nat) (block : Z) : M Z :=
  let* b := read_hdr block in
  let block_end := wrap (block + size b + HDR) in
  let* h := get_HEAD in
  find_next_loop fuel h block_end.

(** [remove_free_block(block)] *)
Fixpoint remove_loop (fuel : nat) (curr block : Z) : M unit :=
  match fuel with
  | O => diverge
  | S f =>
      if curr =? NULL then ret tt else
      let* c := read_hdr curr in
      if next c =? block then
        let* b := read_hdr block in write_next curr (next b)
      else remove_loop f (next c) block
  end.
Definition remove_free_block (fuel : nat) (block : Z) : M unit :=
  let* curr := get_HEAD in
  if curr =? block then
    let* b := read_hdr block in set_HEAD (next b)
  else remove_loop fuel curr block.

(** [coalesce(block)] *)
Definition coalesce (fuel : nat) (block : Z) : M Z :=
  if block =? NULL then ret NULL else
  let* prev := find_prev fuel block in
  let* nxt := find_next fuel block in
  let* block :=
    (if prev =? NULL then ret block else
     let* p := read_hdr prev in
     if wrap (prev + size p + HDR) =? block then
       let* b := read_hdr block in
       let* _ := write_size prev (wrap (size p + wrap (size b + HDR))) in
       let* p2 := read_hdr prev in
       let* _ :=
         (if next p2 =? block then
            let* b2 := read_hdr block in write_next prev (next b2)
          else ret tt) in
       ret prev
     else ret block) in
  if nxt =? NULL then ret block else
  let* b := read_hdr block in
  if wrap (block + size b + HDR) =? nxt then
    let* n := read_hdr nxt in
    let* _ := write_size block (wrap (size b + wrap (size n + HDR))) in
    let* n2 := read_hdr nxt in
    let* _ := write_next block (next n2) in
    ret block
  else ret block.

(** [do_alloc(size)] *)
Definition do_alloc (sz : Z) : M Z :=
  if sz =? 0 then ret NULL else
  let total_size := wrap (sz + HDR) in
  let* block := sbrk (to_intptr total_size) in
  if block =? SBRK_ERR then ret NULL else
  let* _ := write_size block sz in
  let* _ := write_next block NULL in
  ret (wrap (block + HDR)).

(** The [while (curr_block)] loop of [tumalloc]. *)
Fixpoint tumalloc_loop (fuel : nat) (curr sz : Z) : M Z :=
  match fuel with
  | O => diverge
  | S f =>
      if curr =? NULL then do_alloc sz else
      let* c := read_hdr curr in
      if sz <=? size c then
        let* _ := remove_free_block fuel curr in
        let* c2 := read_hdr curr in
        let* _ :=
          (if wrap (sz + HDR) <=? size c2 then
             let* _ := split curr (to_int sz) in
             let leftovers := wrap (curr + sz + HDR) in
             let* hd := get_HEAD in
             let* hn := (if hd =? NULL then ret NULL
                         else let* h := read_hdr hd in ret (next h)) in
             if (hd =? NULL) || (hn =? NULL) then
               let* _ := write_next leftovers NULL in set_HEAD leftovers
             else
               let* _ := write_next leftovers hd in set_HEAD leftovers
           else ret tt) in
        ret (wrap (curr + HDR))
      else tumalloc_loop f (next c) sz
  end.

(** [tumalloc(size)] *)
Definition tumalloc (fuel : nat) (sz : Z) : M Z :=
  if sz =? 0 then ret NULL else
  let* curr := get_HEAD in
  tumalloc_loop fuel curr sz.

(** [tucalloc(num, size)] *)
Definition tucalloc (fuel : nat) (num sz : Z) : M Z :=
  if (num =? 0) || (sz =? 0) then ret NULL else
  if (0 <? num) && (0 <? sz) && ((W - 1) / sz <? num) then ret NULL else
  let* block := tumalloc fuel (wrap (num * sz)) in
  if block =? NULL then ret NULL else
  let* _ := memset block 0 sz in
  ret block.

(** [tufree(ptr)] *)
Definition tufree (fuel : nat) (ptr : Z) : M unit :=
  let tmp := wrap (ptr - HDR) in
  if ptr =? NULL then ret tt else
  let* programbreak := sbrk 0 in
  let* t := read_hdr tmp in
  if wrap (tmp + size t + HDR) =? programbreak then
    let* hd := get_HEAD in
    let* _ :=
      (if hd =? tmp then set_HEAD NULL
       else
         let* prev_pointer := find_prev fuel tmp in
         if prev_pointer =? NULL then ret tt
         else write_next prev_pointer NULL) in
    let* t2 := read_hdr tmp in
    let* _ := sbrk (to_intptr (wrap (- wrap (size t2 + HDR)))) in
    ret tt
  else
    let* hd := get_HEAD in
    let* hn := (if hd =? NULL then ret NULL
                else let* h := read_hdr hd in ret (next h)) in
    if (hd =? NULL) || (hn =? NULL) then
      let* _ := write_next tmp NULL in set_HEAD tmp
    else
      let* _ := write_next tmp hd in
      let* r := coalesce fuel tmp in
      set_HEAD r.

(** [turealloc(ptr, new_size)] *)
Definition turealloc (fuel : nat) (ptr new_size : Z) : M Z :=
  let header := wrap (ptr - HDR) in
  if (ptr =? NULL) || (new_size =? 0) then tumalloc fuel new_size else
  let* h := read_hdr header in
  if new_size <=? size h then ret ptr else
  let* redo := tumalloc fuel new_size in
  if redo =? NULL then ret NULL else
  let* h2 := read_hdr header in
  let* _ := memcpy redo ptr (if new_size <? size h2 then new_size else size h2) in
  let* _ := tufree fuel ptr in
  ret redo.

(** ** Client programs *)

(** One call of the public interface, or a client store into a payload. *)
Inductive call :=
  | Malloc (n : Z)
  | Calloc (num sz : Z)
  | Realloc (p n : Z)
  | Free (p : Z)
  | Store (a v : Z).

(** Arguments a C caller can pass: [size_t] values, pointers and bytes. *)
Definition call_ok (c : call) : Prop :=
  match c with
  | Malloc n => 0 <= n < W
  | Calloc num sz => 0 <= num < W /\ 0 <= sz < W
  | Realloc p n => 0 <= p < W /\ 0 <= n < W
  | Free p => 0 <= p < W
  | Store a v => 0 <= a < W /\ 0 <= v < 256
  end.

Definition run_call (fuel : nat) (c : call) : M Z :=
  match c with
  | Malloc n => tumalloc fuel n
  | Calloc num sz => tucalloc fuel num sz
  | Realloc p n => turealloc fuel p n
  | Free p => let* _ := tufree fuel p in ret NULL
  | Store a v => let* _ := write_byte a v in ret NULL
  end.

Fixpoint run_calls (fuel : nat) (cs : list call) : M (list Z) :=
  match cs with
  | [] => ret []
  | c :: cs' =>
      let* r := run_call fuel c in
      let* rs := run_calls fuel cs' in
      ret (r :: rs)
  end.

(** The states the model reaches from a start through the interface (a
    subset of the C heaps: see the memory model above). *)
Inductive reachable : state -> Prop :=
  | reach_init base limit :
      0 < base <= limit -> limit <= 2 ^ 63 -> reachable (init_state base limit)
  | reach_step s c fuel r s' :
      reachable s -> call_ok c -> run_call fuel c s = Some (r, s') ->
      reachable s'.

(** The blocks reachable from [HEAD], walking at most [fuel] links. *)
Fixpoint list_from (fuel : nat) (s : state) (curr : Z) : list Z :=
  match fuel with
  | O => []
  | S f => if curr =? NULL then [] else curr :: list_from f s (next (get_hdr s curr))
  end.
Definition free_list (fuel : nat) (s : state) : list Z := list_from fuel s (HEAD s).

(** ** Invariants *)

(** The break stays between its base and the limit, below 2^63. *)
Definition bounds (s : state) : Prop :=
  0 < brk_base s /\ brk_base s <= brk s <= brk_limit s /\ brk_limit s <= 2 ^ 63.

(** The free list has at most one entry. *)
Definition head_inv (s : state) : Prop :=
  HEAD s = NULL \/ next (get_hdr s (HEAD s)) = NULL.

Definition preserves {A} (P : state -> Prop) (m : M A) : Prop :=
  forall s x s', P s -> m s = Some (x, s') -> P s'.

(** [m] only reads the state. *)
Definition read_only {A} (m : M A) : Prop :=
  forall s x s', m s = Some (x, s') -> s' = s.

(** Addresses of the process lie in the lower half of the address space
    (x86-64 user space ends at 2^47): the break and every header. *)
Definition addr_ok (s : state) : Prop :=
  0 <= brk s < 2 ^ 63 /\ map_Forall (fun a _ => 0 <= a < 2 ^ 63) (hdrs s).

(** [addr_ok] as a check on a concrete state. *)
Definition addr_okb (s : state) : bool :=
  (0 <=? brk s) && (brk s <? 2 ^ 63) &&
  forallb (fun '(a, _) => (0 <=? a) && (a <? 2 ^ 63)) (map_to_list (hdrs s)).

(** ** Concrete runs *)

(** A heap whose break starts at 4096 and may grow to 2^40. *)
Definition start : state := init_state 4096 (2 ^ 40).

(** The state after a client program (the start state if it diverges). *)
Definition after (fuel : nat) (cs : list call) (s : state) : state :=
  match run_calls fuel cs s with Some (_, s') => s' | None => s end.

(** [P] holds in the state a client program ends in (and it terminates). *)
Definition holds_after (fuel : nat) (cs : list call) (s : state) (P : state -> Prop) : Prop :=
  match run_calls fuel cs s with Some (_, s') => P s' | None => False end.

(** The state an operation ends in (the given state if it diverges). *)
Definition final_state {A} (m : M A) (s : state) : state :=
  match m s with Some (_, s') => s' | None => s end.

(** Sample heaps: a freed 16-byte block at 4096 followed by a 1-byte block
    in use; the same with a freed 100-byte block; two blocks in use; and
    three blocks, the middle one (at 4128) freed. *)
Definition small_free : state := after 100 [Malloc 16; Malloc 1; Free 4112] start.

Definition large_free : state := after 100 [Malloc 100; Malloc 1; Free 4112] start.

Definition two_used : state := after 100 [Malloc 16; Malloc 1] start.

Definition middle_free : state :=
  after 100 [Malloc 16; Malloc 16; Malloc 1; Free 4144] start.

(** A 16-byte block in use whose first payload byte holds 7. *)
Definition stored_block : state := after 100 [Malloc 16; Store 4112 7] start.

(** The heap a C process reaches from [start] by: [p1 = tumalloc(2^32 + 32)]
    (block b = 4096); a client store of 40 into the byte at offset
    [2^32 + 5] of [p1]; two [tumalloc(1)] (blocks c = b + 2^32 + 48 and
    d = b + 2^32 + 65, d ending at the break); [tufree(p1)];
    [tumalloc(2^32 + 5)], whose [split] gets [(int) 5] and whose new head
    L = b + 2^32 + 21 has the client's byte 40 as its size; [tumalloc(40)],
    which hands out L's 40 bytes, covering c's header; [tufree] of c's
    payload (c becomes the sole entry, link NULL); and a client store of the
    8 bytes of b (little endian) at offsets 19 to 26 of L's payload, which
    is [c->next].  Headers, bytes and break are those of that C heap: the
    free list is c, then b. *)
Definition linked_pair : state :=
  mk_state (4096 + 2 ^ 32 + 48)
    (list_to_map [(4096, mk_block 5 NULL);
                  (4096 + 21, mk_block (2 ^ 32 + 11) NULL);
                  (4096 + 2 ^ 32 + 21, mk_block 40 NULL);
                  (4096 + 2 ^ 32 + 48, mk_block 1 4096);
                  (4096 + 2 ^ 32 + 65, mk_block 1 NULL)])
    (list_to_map [(4096 + 2 ^ 32 + 21, 40);
                  (4096 + 2 ^ 32 + 56, 0); (4096 + 2 ^ 32 + 57, 16);
                  (4096 + 2 ^ 32 + 58, 0); (4096 + 2 ^ 32 + 59, 0);
                  (4096 + 2 ^ 32 + 60, 0); (4096 + 2 ^ 32 + 61, 0);
                  (4096 + 2 ^ 32 + 62, 0); (4096 + 2 ^ 32 + 63, 0)])
    (4096 + 2 ^ 32 + 82) 4096 (2 ^ 40).

(** The sizes recorded in the headers of the free list, in list order. *)
Definition free_sizes (fuel : nat) (s : state) : list Z :=
  map (fun b => size (get_hdr s b)) (free_list fuel s).

End Alloc.

(** * Properties *)

Module AllocFacts.
Import Alloc.

Create HintDb alloc.

Lemma bind_Some {A B} (m : M A) (k : A -> M B) s r s' :
  bind m k s = Some (r, s') <->
  exists x s1, m s = Some (x, s1) /\ k x s1 = Some (r, s').
Proof.
  unfold bind. split.
  - destruct (m s) as [[x s1]|]; [eauto | discriminate].
  - intros (x & s1 & -> & H). exact H.
Qed.

Lemma preserves_bind {A B} P (m : M A) (k : A -> M B) :
  preserves P m -> (forall x, preserves P (k x)) -> preserves P (bind m k).
Proof.
  intros Hm Hk s r s' HP H. apply bind_Some in H as (x & s1 & H1 & H2).
  eapply Hk; [eapply Hm; [exact HP | exact H1] | exact H2].
Qed.

Lemma preserves_ret {A} P (x : A) : preserves P (ret x).
Proof. intros s y s' HP H. injection H as _ <-. exact HP. Qed.

Lemma preserves_diverge {A} P : preserves P (@diverge A).
Proof. intros s y s' _ H. discriminate. Qed.

Lemma preserves_read_only {A} P (m : M A) : read_only m -> preserves P m.
Proof. intros Hro s x s' HP H. apply Hro in H. subst. exact HP. Qed.

Lemma read_only_bind {A B} (m : M A) (k : A -> M B) :
  read_only m -> (forall x, read_only (k x)) -> read_only (bind m k).
Proof.
  intros Hm Hk s r s' H. apply bind_Some in H as (x & s1 & H1 & H2).
  apply Hm in H1. apply Hk in H2. congruence.
Qed.

Lemma read_only_ret {A} (x : A) : read_only (ret x).
Proof. intros s y s' H. injection H as _ <-. reflexivity. Qed.

Lemma read_only_diverge {A} : read_only (@diverge A).
Proof. intros s y s' H. discriminate. Qed.

Lemma read_only_get_HEAD : read_only get_HEAD.
Proof. intros s y s' H. injection H as _ <-. reflexivity. Qed.

Lemma read_only_read_hdr a : read_only (read_hdr a).
Proof. intros s y s' H. injection H as _ <-. reflexivity. Qed.

Lemma read_only_load_byte a : read_only (load_byte a).
Proof. intros s y s' H. injection H as _ <-. reflexivity. Qed.

#[local] Hint Resolve preserves_ret preserves_diverge read_only_ret read_only_diverge
  read_only_get_HEAD read_only_read_hdr read_only_load_byte : alloc.

(** Splits a goal about a composite computation into its steps. *)
Ltac decompose_m :=
  repeat first
    [ progress cbv zeta
    | apply preserves_bind; [| intros ?]
    | apply read_only_bind; [| intros ?]
    | match goal with
      | |- preserves _ (if ?b then _ else _) => destruct b
      | |- read_only (if ?b then _ else _) => destruct b
      end ].

Lemma find_prev_loop_read_only fuel curr block :
  read_only (find_prev_loop fuel curr block).
Proof.
  revert curr. induction fuel as [|f IH]; intros curr; simpl;
    decompose_m; eauto with alloc.
Qed.

Lemma find_next_loop_read_only fuel curr block_end :
  read_only (find_next_loop fuel curr block_end).
Proof.
  revert curr. induction fuel as [|f IH]; intros curr; simpl;
    decompose_m; eauto with alloc.
Qed.

#[local] Hint Resolve find_prev_loop_read_only find_next_loop_read_only : alloc.

Lemma find_prev_read_only fuel block : read_only (find_prev fuel block).
Proof. unfold find_prev. decompose_m; eauto with alloc. Qed.

Lemma find_next_read_only fuel block : read_only (find_next fuel block).
Proof. unfold find_next. decompose_m; eauto with alloc. Qed.

#[local] Hint Resolve find_prev_read_only find_next_read_only : alloc.

(** *** The break bounds *)

Lemma bounds_set_HEAD h : preserves bounds (set_HEAD h).
Proof. intros s y s' HP H. injection H as _ <-. exact HP. Qed.
Lemma bounds_write_size a v : preserves bounds (write_size a v).
Proof. intros s y s' HP H. injection H as _ <-. exact HP. Qed.
Lemma bounds_write_next a v : preserves bounds (write_next a v).
Proof. intros s y s' HP H. injection H as _ <-. exact HP. Qed.
Lemma bounds_write_byte a v : preserves bounds (write_byte a v).
Proof. intros s y s' HP H. injection H as _ <-. exact HP. Qed.

Lemma bounds_sbrk incr : preserves bounds (sbrk incr).
Proof.
  intros s y s' HP H. unfold sbrk in H.
  destruct ((brk_base s <=? brk s + incr) && (brk s + incr <=? brk_limit s)) eqn:E.
  - injection H as _ <-. apply andb_true_iff in E as [E1 E2].
    apply Z.leb_le in E1, E2. unfold bounds in *; simpl; lia.
  - injection H as _ <-. exact HP.
Qed.

#[local] Hint Resolve bounds_set_HEAD bounds_write_size bounds_write_next
  bounds_write_byte bounds_sbrk preserves_read_only : alloc.

Lemma bounds_memset_loop p v n : preserves bounds (memset_loop p v n).
Proof. revert p. induction n; intros p; simpl; decompose_m; eauto with alloc. Qed.
Lemma bounds_memcpy_loop d s n : preserves bounds (memcpy_loop d s n).
Proof. revert d s. induction n; intros d s; simpl; decompose_m; eauto with alloc. Qed.
Lemma bounds_remove_loop fuel curr block : preserves bounds (remove_loop fuel curr block).
Proof. revert curr. induction fuel; intros curr; simpl; decompose_m; eauto with alloc. Qed.

#[local] Hint Resolve bounds_memset_loop bounds_memcpy_loop bounds_remove_loop : alloc.

Lemma bounds_split block n : preserves bounds (split block n).
Proof. unfold split. decompose_m; eauto with alloc. Qed.
Lemma bounds_remove_free_block fuel block : preserves bounds (remove_free_block fuel block).
Proof. unfold remove_free_block. decompose_m; eauto with alloc. Qed.
Lemma bounds_coalesce fuel block : preserves bounds (coalesce fuel block).
Proof. unfold coalesce. decompose_m; eauto with alloc. Qed.
Lemma bounds_do_alloc sz : preserves bounds (do_alloc sz).
Proof. unfold do_alloc. decompose_m; eauto with alloc. Qed.

#[local] Hint Resolve bounds_split bounds_remove_free_block bounds_coalesce bounds_do_alloc : alloc.

Lemma bounds_tumalloc_loop fuel curr sz : preserves bounds (tumalloc_loop fuel curr sz).
Proof. revert curr. induction fuel; intros curr; simpl; decompose_m; eauto with alloc. Qed.

#[local] Hint Resolve bounds_tumalloc_loop : alloc.

Lemma bounds_tumalloc fuel sz : preserves bounds (tumalloc fuel sz).
Proof. unfold tumalloc. decompose_m; eauto with alloc. Qed.

#[local] Hint Resolve bounds_tumalloc : alloc.

Lemma bounds_tufree fuel ptr : preserves bounds (tufree fuel ptr).
Proof. unfold tufree. decompose_m; eauto with alloc. Qed.

#[local] Hint Resolve bounds_tufree : alloc.

Lemma bounds_run_call fuel c : preserves bounds (run_call fuel c).
Proof.
  destruct c; simpl;
    unfold tucalloc, turealloc, memset, memcpy; decompose_m; eauto with alloc.
Qed.

(** *** Header reads after a write *)

Lemma get_hdr_insert s a h b :
  get_hdr (set_hdrs_s (<[a := h]> (hdrs s)) s) b =
  if decide (a = b) then h else get_hdr s b.
Proof.
  unfold get_hdr. simpl. rewrite lookup_insert. destruct (decide (a = b)); reflexivity.
Qed.

Lemma get_hdr_set_HEAD s h b : get_hdr (set_HEAD_s h s) b = get_hdr s b.
Proof. reflexivity. Qed.

Lemma next_write_size s a v b :
  next (get_hdr (set_hdrs_s (<[a := mk_block v (next (get_hdr s a))]> (hdrs s)) s) b) =
  next (get_hdr s b).
Proof. rewrite get_hdr_insert. destruct (decide (a = b)); subst; reflexivity. Qed.

(** *** The free list has at most one entry *)

Lemma head_inv_write_size a v : preserves head_inv (write_size a v).
Proof.
  intros s y s' HP H. injection H as _ <-. unfold head_inv in *. simpl.
  rewrite next_write_size. exact HP.
Qed.

Lemma head_inv_write_next_null a : preserves head_inv (write_next a NULL).
Proof.
  intros s y s' HP H. injection H as _ <-. unfold head_inv in *. simpl.
  rewrite get_hdr_insert. destruct (decide (a = HEAD s)); simpl; tauto.
Qed.

Lemma head_inv_set_HEAD_null : preserves head_inv (set_HEAD NULL).
Proof. intros s y s' HP H. injection H as _ <-. left. reflexivity. Qed.

Lemma head_inv_write_byte a v : preserves head_inv (write_byte a v).
Proof. intros s y s' HP H. injection H as _ <-. exact HP. Qed.

Lemma head_inv_sbrk incr : preserves head_inv (sbrk incr).
Proof.
  intros s y s' HP H. unfold sbrk in H.
  destruct (_ && _); injection H as _ <-; exact HP.
Qed.

#[local] Hint Resolve head_inv_write_size head_inv_write_next_null head_inv_set_HEAD_null
  head_inv_write_byte head_inv_sbrk : alloc.

Lemma head_inv_memset_loop p v n : preserves head_inv (memset_loop p v n).
Proof. revert p. induction n; intros p; simpl; decompose_m; eauto with alloc. Qed.
Lemma head_inv_memcpy_loop d s n : preserves head_inv (memcpy_loop d s n).
Proof. revert d s. induction n; intros d s; simpl; decompose_m; eauto with alloc. Qed.
Lemma head_inv_do_alloc sz : preserves head_inv (do_alloc sz).
Proof. unfold do_alloc. decompose_m; eauto with alloc. Qed.

#[local] Hint Resolve head_inv_memset_loop head_inv_memcpy_loop head_inv_do_alloc : alloc.

(** *** Computations that leave [HEAD] alone *)

Definition head_is (h : Z) (s : state) : Prop := HEAD s = h.

Lemma head_is_write_size h a v : preserves (head_is h) (write_size a v).
Proof. intros s y s' HP H. injection H as _ <-. exact HP. Qed.
Lemma head_is_write_next h a v : preserves (head_is h) (write_next a v).
Proof. intros s y s' HP H. injection H as _ <-. exact HP. Qed.

#[local] Hint Resolve head_is_write_size head_is_write_next : alloc.

Lemma head_is_split h block n : preserves (head_is h) (split block n).
Proof. unfold split. decompose_m; eauto with alloc. Qed.

Ltac step H :=
  apply bind_Some in H as (?x & ?s & ?Hs & H).

Ltac prim H := cbv [ret get_HEAD set_HEAD read_hdr write_next write_size] in H;
  first [injection H as <- <- | injection H as <-].

Lemma head_inv_tumalloc fuel sz : preserves head_inv (tumalloc fuel sz).
Proof.
  intros s r s' HP H. unfold tumalloc in H.
  destruct (sz =? 0); [prim H; exact HP |].
  step H. prim Hs. destruct fuel as [|f]; [discriminate |]. simpl in H.
  destruct (HEAD s =? NULL) eqn:Hnull.
  { eapply head_inv_do_alloc; eauto. }
  apply Z.eqb_neq in Hnull.
  assert (Hn : next (get_hdr s (HEAD s)) = NULL) by (destruct HP; tauto).
  step H. prim Hs.
  destruct (sz <=? size (get_hdr s (HEAD s))).
  - step H. unfold remove_free_block in Hs. step Hs. prim Hs0.
    rewrite Z.eqb_refl in Hs. step Hs. prim Hs0. prim Hs.
    rewrite Hn in *.
    step H. prim Hs. step H. prim H.
    destruct (_ <=? _).
    + step Hs. eapply head_is_split in Hs0; [| reflexivity].
      unfold head_is in Hs0. cbv zeta in Hs.
      step Hs. prim Hs1. rewrite Hs0 in Hs. simpl in Hs.
      step Hs. prim Hs1. simpl in Hs. step Hs. cbv [write_next] in Hs1.
      injection Hs1 as <- <-. prim Hs.
      right. unfold head_inv. rewrite get_hdr_set_HEAD. cbn [HEAD set_HEAD_s].
      rewrite get_hdr_insert, decide_True by reflexivity. reflexivity.
    + prim Hs. left. reflexivity.
  - destruct f as [|f]; [discriminate |]. simpl in H.
    rewrite Hn in H. simpl in H. eapply head_inv_do_alloc; eauto.
Qed.

(** Proves [P s'] from [m s = Some (_, s')] and [P s] by splitting [m]. *)
Ltac by_pres H HP :=
  let Hp := fresh "Hp" in
  match type of H with
  | ?m _ = Some _ =>
      match goal with
      | |- ?P _ =>
          assert (Hp : preserves P m) by (decompose_m; eauto with alloc);
          exact (Hp _ _ _ HP H)
      end
  end.

#[local] Hint Resolve head_inv_tumalloc : alloc.

Lemma head_inv_push a s r s' :
  bind (write_next a NULL) (fun _ => set_HEAD a) s = Some (r, s') -> head_inv s'.
Proof.
  intros H. step H. prim Hs. prim H.
  right. unfold head_inv. rewrite get_hdr_set_HEAD. cbn [HEAD set_HEAD_s].
  rewrite get_hdr_insert, decide_True by reflexivity. reflexivity.
Qed.

Lemma head_inv_tufree fuel ptr : preserves head_inv (tufree fuel ptr).
Proof.
  intros s r s' HP H. unfold tufree in H. cbv zeta in H.
  destruct (ptr =? NULL); [prim H; exact HP |].
  step H. assert (HP1 : head_inv s0) by by_pres Hs HP. clear HP Hs.
  step H. prim Hs.
  destruct (_ =? x).
  - step H. prim Hs. step H.
    assert (HP2 : head_inv s1) by by_pres Hs HP1. by_pres H HP2.
  - step H. prim Hs. step H.
    destruct (HEAD s0 =? NULL) eqn:E.
    + prim Hs. simpl in H. eapply head_inv_push; exact H.
    + step Hs. prim Hs0. prim Hs.
      assert (Hn : next (get_hdr s0 (HEAD s0)) = NULL).
      { destruct HP1 as [HP1 | HP1]; [apply Z.eqb_neq in E; contradiction | exact HP1]. }
      rewrite Hn in H. rewrite orb_true_r in H. eapply head_inv_push; exact H.
Qed.

#[local] Hint Resolve head_inv_tufree : alloc.

Lemma head_inv_run_call fuel c : preserves head_inv (run_call fuel c).
Proof.
  destruct c; simpl;
    unfold tucalloc, turealloc, memset, memcpy; decompose_m; eauto with alloc.
Qed.

Lemma bounds_init base limit :
  0 < base <= limit -> limit <= 2 ^ 63 -> bounds (init_state base limit).
Proof. intros. unfold bounds. simpl. lia. Qed.

(** Every reachable state satisfies both invariants. *)
Lemma reachable_inv s : reachable s -> bounds s /\ head_inv s.
Proof.
  induction 1 as [base limit Hb Hl | s c fuel r s' _ [IHb IHh] _ Hrun].
  - split; [apply bounds_init; assumption | left; reflexivity].
  - split.
    + eapply bounds_run_call; eauto.
    + eapply head_inv_run_call; eauto.
Qed.

(** *** Facts used by the release of a trailing block *)

Lemma sbrk_zero s : bounds s -> sbrk 0 s = Some (brk s, s).
Proof.
  intros (Hb & Hr & Hl). unfold sbrk. rewrite Z.add_0_r.
  replace ((brk_base s <=? brk s) && (brk s <=? brk_limit s)) with true
    by (symmetry; apply andb_true_iff; split; apply Z.leb_le; lia).
  destruct s; reflexivity.
Qed.

Lemma find_prev_head s fuel block x s1 :
  head_inv s -> find_prev fuel block s = Some (x, s1) ->
  s1 = s /\ (x = NULL \/ x = HEAD s).
Proof.
  intros HP H. unfold find_prev in H. step H. prim Hs.
  destruct fuel as [|f]; [discriminate |]. simpl in H.
  destruct (HEAD s =? NULL) eqn:E; [prim H; auto |].
  apply Z.eqb_neq in E. step H. prim Hs.
  destruct (_ =? block); [prim H; auto |].
  assert (Hn : next (get_hdr s (HEAD s)) = NULL) by (destruct HP; tauto).
  rewrite Hn in H. destruct f; [discriminate |]. simpl in H. prim H. auto.
Qed.

Lemma list_from_ext n s s' c :
  (forall b, get_hdr s' b = get_hdr s b) -> list_from n s' c = list_from n s c.
Proof.
  intros Hs. revert c. induction n as [|n IH]; intros c; simpl; [reflexivity |].
  rewrite Hs, IH. reflexivity.
Qed.

Lemma free_list_head_inv n s :
  head_inv s -> HEAD s <> NULL -> free_list (S n) s = [HEAD s].
Proof.
  intros HP Hne. unfold free_list. simpl.
  apply Z.eqb_neq in Hne. rewrite Hne.
  assert (Hn : next (get_hdr s (HEAD s)) = NULL)
    by (destruct HP as [HP|HP]; [apply Z.eqb_neq in Hne; contradiction | exact HP]).
  rewrite Hn. destruct n; reflexivity.
Qed.

Lemma free_list_sub n s b :
  head_inv s -> b <> HEAD s -> b ∉ free_list n s.
Proof.
  intros HP Hb. destruct n as [|n]; [apply not_elem_of_nil |].
  destruct (decide (HEAD s = NULL)) as [E|E].
  - unfold free_list. simpl. rewrite E. simpl. apply not_elem_of_nil.
  - rewrite free_list_head_inv by assumption. set_solver.
Qed.

(** The amount given back to the OS: when the block at [tmp] ends at the
    break [b], [size + 16] computed in [size_t] is [b - tmp], and its
    negation passed to [sbrk] as an [intptr_t] is [-(b - tmp)]. *)
Lemma contract_amount tmp sz b :
  0 <= tmp <= b -> b <= 2 ^ 63 -> wrap (tmp + sz + HDR) = b ->
  wrap (sz + HDR) = b - tmp /\ to_intptr (wrap (- wrap (sz + HDR))) = - (b - tmp).
Proof.
  intros Ht Hb Hw.
  assert (Hx : wrap (sz + HDR) = b - tmp).
  { unfold wrap, W in *.
    replace (tmp + sz + HDR) with (tmp + (sz + HDR)) in Hw by lia.
    rewrite Z.add_mod in Hw by lia. rewrite (Z.mod_small tmp) in Hw by lia.
    pose proof (Z.mod_pos_bound (sz + HDR) (2 ^ 64) ltac:(lia)) as Hr.
    set (x := (sz + HDR) mod 2 ^ 64) in *.
    destruct (Z.lt_ge_cases (tmp + x) (2 ^ 64)).
    - rewrite Z.mod_small in Hw by lia. lia.
    - rewrite (Z.mod_eq (tmp + x)) in Hw by lia.
      assert ((tmp + x) / 2 ^ 64 = 1).
      { symmetry. apply (Z.div_unique _ _ _ (tmp + x - 2 ^ 64)); lia. }
      lia. }
  split; [exact Hx |]. rewrite Hx. unfold to_intptr, wrap, W.
  destruct (Z.eq_dec (b - tmp) 0) as [E|E].
  - rewrite E. reflexivity.
  - rewrite (Z.mod_eq (- (b - tmp))) by lia.
    assert (- (b - tmp) / 2 ^ 64 = -1).
    { symmetry. apply (Z.div_unique _ _ _ (2 ^ 64 - (b - tmp))); lia. }
    rewrite H. destruct (Z.ltb_spec (- (b - tmp) - 2 ^ 64 * -1) (2 ^ 63)); lia.
Qed.

Lemma sbrk_contract s tmp :
  bounds s -> brk_base s <= tmp <= brk s ->
  sbrk (- (brk s - tmp)) s = Some (brk s, set_brk_s tmp s).
Proof.
  intros (Hb & Hr & Hl) Ht. unfold sbrk.
  replace (brk s + - (brk s - tmp)) with tmp by lia.
  replace ((brk_base s <=? tmp) && (tmp <=? brk_limit s)) with true
    by (symmetry; apply andb_true_iff; split; apply Z.leb_le; lia).
  reflexivity.
Qed.

Lemma wrap_range z : 0 <= wrap z < W.
Proof. unfold wrap, W. apply Z.mod_pos_bound. lia. Qed.

(** The tail of [tufree] on a trailing block: [sbrk(-(tmp->size + 16))]. *)
Lemma tufree_tail s1 tmp u s' :
  bounds s1 -> brk_base s1 <= tmp <= brk s1 ->
  wrap (tmp + size (get_hdr s1 tmp) + HDR) = brk s1 ->
  (let* t2 := read_hdr tmp in
   let* _ := sbrk (to_intptr (wrap (- wrap (size t2 + HDR)))) in ret tt) s1 =
    Some (u, s') ->
  s' = set_brk_s tmp s1.
Proof.
  intros Hb Ht Hend H. step H. prim Hs. step H.
  destruct (contract_amount tmp (size (get_hdr s1 tmp)) (brk s1)) as [_ Hi];
    [unfold bounds in Hb; lia | unfold bounds in Hb; lia | exact Hend |].
  rewrite Hi, sbrk_contract in Hs by assumption.
  injection Hs as <- <-. prim H. reflexivity.
Qed.

(** Clearing the link of the only entry changes no header. *)
Lemma write_next_head_frame s b :
  head_inv s -> HEAD s <> NULL ->
  get_hdr (set_hdrs_s (<[HEAD s := mk_block (size (get_hdr s (HEAD s))) NULL]> (hdrs s)) s) b =
  get_hdr s b.
Proof.
  intros HP Hne. rewrite get_hdr_insert.
  destruct (decide (HEAD s = b)) as [<-|]; [| reflexivity].
  assert (Hn : next (get_hdr s (HEAD s)) = NULL) by (destruct HP; tauto).
  rewrite <- Hn. destruct (get_hdr s (HEAD s)); reflexivity.
Qed.

(** *** A failed allocation changes nothing *)

Lemma addr_okb_sound s : addr_okb s = true -> addr_ok s.
Proof.
  unfold addr_okb, addr_ok. intros H.
  apply andb_true_iff in H as [H Hl]. apply andb_true_iff in H as [H1 H2].
  apply Z.leb_le in H1. apply Z.ltb_lt in H2. split; [lia |].
  intros a h Hah. rewrite forallb_forall in Hl.
  assert (Hin : In (a, h) (map_to_list (hdrs s)))
    by (apply list_elem_of_In, elem_of_map_to_list; exact Hah).
  specialize (Hl _ Hin). apply andb_true_iff in Hl as [Ha1 Ha2].
  apply Z.leb_le in Ha1. apply Z.ltb_lt in Ha2. lia.
Qed.

Lemma sbrk_cases incr s x s1 :
  sbrk incr s = Some (x, s1) ->
  (x = SBRK_ERR /\ s1 = s) \/ (x = brk s /\ s1 = set_brk_s (brk s + incr) s).
Proof.
  unfold sbrk. destruct (_ && _); intros H; injection H as <- <-; auto.
Qed.

Lemma do_alloc_null sz s s' :
  0 <= brk s < 2 ^ 63 -> do_alloc sz s = Some (NULL, s') -> s' = s.
Proof.
  intros Hb H. unfold do_alloc in H.
  destruct (sz =? 0); [prim H; reflexivity |]. cbv zeta in H.
  step H. apply sbrk_cases in Hs as [[-> ->] | [-> ->]].
  - rewrite Z.eqb_refl in H. prim H. reflexivity.
  - replace (brk s =? SBRK_ERR) with false in H
      by (symmetry; apply Z.eqb_neq; unfold SBRK_ERR;
          change (wrap (-1)) with (2 ^ 64 - 1); lia).
    step H. prim Hs. step H. prim Hs. injection H as Hr _.
    exfalso. revert Hr. unfold wrap, W, HDR, NULL. rewrite Z.mod_small by lia. lia.
Qed.

Lemma tumalloc_loop_null fuel curr sz s s' :
  addr_ok s -> 0 < sz -> tumalloc_loop fuel curr sz s = Some (NULL, s') -> s' = s.
Proof.
  intros [Hb Hk] Hsz. revert curr.
  induction fuel as [|f IH]; intros curr H; [discriminate |]. simpl in H.
  destruct (curr =? NULL); [eapply do_alloc_null; eauto |].
  step H. prim Hs.
  destruct (sz <=? size (get_hdr s curr)) eqn:Efit.
  - apply Z.leb_le in Efit.
    assert (Hin : 0 <= curr < 2 ^ 63).
    { unfold get_hdr in Efit. destruct (hdrs s !! curr) eqn:Ec.
      - exact (Hk _ _ Ec).
      - simpl in Efit. lia. }
    step H. step H. step H. injection H as Hr _.
    exfalso. revert Hr. unfold wrap, W, HDR, NULL. rewrite Z.mod_small by lia. lia.
  - eapply IH. exact H.
Qed.

Lemma tumalloc_null fuel sz s s' :
  addr_ok s -> 0 <= sz -> tumalloc fuel sz s = Some (NULL, s') -> s' = s.
Proof.
  intros Ha Hsz H. unfold tumalloc in H.
  destruct (Z.eqb_spec sz 0); [prim H; reflexivity |].
  step H. prim Hs. apply (tumalloc_loop_null fuel (HEAD s) sz s s'); [exact Ha | lia | exact H].
Qed.

Lemma wrap_small z : 0 <= z < W -> wrap z = z.
Proof. intros Hz. unfold wrap. apply Z.mod_small. exact Hz. Qed.

Lemma get_hdr_insert_eq s a h : get_hdr (set_hdrs_s (<[a := h]> (hdrs s)) s) a = h.
Proof. unfold get_hdr. simpl. rewrite lookup_insert_eq. reflexivity. Qed.

Lemma get_hdr_insert_ne s a h b :
  a <> b -> get_hdr (set_hdrs_s (<[a := h]> (hdrs s)) s) b = get_hdr s b.
Proof. intros Hab. unfold get_hdr. simpl. rewrite lookup_insert_ne by exact Hab. reflexivity. Qed.

Lemma split_exact s block n :
  0 <= block -> 0 <= n < 2 ^ 31 -> block + n + HDR < W ->
  0 <= size (get_hdr s block) < W ->
  split block n s =
    if size (get_hdr s block) <? n + HDR then Some (NULL, s)
    else Some (block, set_hdrs_s
      (<[block := mk_block n (next (get_hdr s block))]>
       (<[block + n + HDR := mk_block (size (get_hdr s block) - n - HDR)
                                      (next (get_hdr s block))]> (hdrs s))) s).
Proof.
  intros Hb Hn Hend Hsz. unfold split, bind, read_hdr, ret, write_size, write_next.
  rewrite (wrap_small (n + HDR)) by (unfold HDR, W in *; lia).
  rewrite (wrap_small (block + n + HDR)) by (unfold HDR, W in *; lia).
  destruct (Z.ltb_spec (size (get_hdr s block)) (n + HDR)) as [Hlt|Hge]; [reflexivity |].
  rewrite (wrap_small (size _ - n - HDR)) by (unfold HDR in *; lia).
  rewrite (wrap_small n) by (unfold W; lia).
  assert (Hne : block + n + HDR <> block) by (unfold HDR; lia).
  rewrite !get_hdr_insert_ne by congruence.
  rewrite get_hdr_insert_eq. simpl.
  unfold set_hdrs_s. simpl. rewrite insert_insert_eq. reflexivity.
Qed.

Lemma to_int_small z : 0 <= z < 2 ^ 31 -> to_int z = z.
Proof.
  intros Hz. unfold to_int. rewrite Z.mod_small by lia.
  destruct (Z.ltb_spec z (2 ^ 31)); lia.
Qed.

Lemma do_alloc_exact s sz :
  bounds s -> 0 < sz -> sz + HDR < 2 ^ 63 ->
  do_alloc sz s =
    if brk s + sz + HDR <=? brk_limit s
    then Some (brk s + HDR,
               mk_state (HEAD s) (<[brk s := mk_block sz NULL]> (hdrs s)) (mem s)
                        (brk s + sz + HDR) (brk_base s) (brk_limit s))
    else Some (NULL, s).
Proof.
  intros (Hb & Hr & Hl) Hsz Hbig. unfold do_alloc.
  replace (sz =? 0) with false by (symmetry; apply Z.eqb_neq; lia).
  rewrite (wrap_small (sz + HDR)) by (unfold W, HDR in *; lia).
  unfold to_intptr. replace (sz + HDR <? 2 ^ 63) with true by (symmetry; apply Z.ltb_lt; lia).
  unfold bind, sbrk.
  replace (brk_base s <=? brk s + (sz + HDR)) with true by (symmetry; apply Z.leb_le; unfold HDR in *; lia).
  replace (brk s + (sz + HDR)) with (brk s + sz + HDR) by lia.
  destruct (brk s + sz + HDR <=? brk_limit s); simpl.
  - replace (brk s =? SBRK_ERR) with false
      by (symmetry; apply Z.eqb_neq; unfold SBRK_ERR; change (wrap (-1)) with (2 ^ 64 - 1); lia).
    unfold write_size, write_next, ret. simpl.
    rewrite (wrap_small (brk s + HDR)) by (unfold W, HDR; lia).
    unfold get_hdr. simpl. rewrite lookup_insert_eq. simpl.
    rewrite insert_insert_eq. reflexivity.
  - reflexivity.
Qed.

Lemma do_alloc_wrapped s sz :
  bounds s -> W - HDR <= sz < W -> brk s + (sz + HDR - W) <= brk_limit s ->
  do_alloc sz s =
    Some (wrap (brk s + HDR),
          mk_state (HEAD s) (<[brk s := mk_block sz NULL]> (hdrs s)) (mem s)
                   (brk s + (sz + HDR - W)) (brk_base s) (brk_limit s)).
Proof.
  intros (Hb & Hr & Hl) Hsz Hfit. unfold do_alloc.
  replace (sz =? 0) with false by (symmetry; apply Z.eqb_neq; unfold W, HDR in *; lia).
  replace (wrap (sz + HDR)) with (sz + HDR - W)
    by (unfold wrap; apply (Z.mod_unique _ _ 1); unfold W, HDR in *; lia).
  unfold to_intptr. replace (sz + HDR - W <? 2 ^ 63) with true
    by (symmetry; apply Z.ltb_lt; unfold W, HDR in *; lia).
  unfold bind, sbrk.
  replace (brk_base s <=? brk s + (sz + HDR - W)) with true
    by (symmetry; apply Z.leb_le; unfold W, HDR in *; lia).
  replace (brk s + (sz + HDR - W) <=? brk_limit s) with true
    by (symmetry; apply Z.leb_le; lia).
  simpl.
  replace (brk s =? SBRK_ERR) with false
    by (symmetry; apply Z.eqb_neq; unfold SBRK_ERR; change (wrap (-1)) with (2 ^ 64 - 1); lia).
  unfold write_size, write_next, ret. simpl.
  unfold get_hdr. simpl. rewrite lookup_insert_eq. simpl.
  rewrite insert_insert_eq. reflexivity.
Qed.

Lemma tumalloc_fallback f s sz :
  head_inv s -> 0 < sz ->
  (HEAD s = NULL \/ size (get_hdr s (HEAD s)) < sz) ->
  tumalloc (S (S f)) sz s = do_alloc sz s.
Proof.
  intros Hh Hsz Hc. unfold tumalloc.
  replace (sz =? 0) with false by (symmetry; apply Z.eqb_neq; lia).
  unfold bind, get_HEAD. cbn [tumalloc_loop].
  destruct (Z.eqb_spec (HEAD s) NULL) as [E|E]; [reflexivity |].
  destruct Hc as [Hc|Hc]; [contradiction |].
  assert (Hn : next (get_hdr s (HEAD s)) = NULL) by (destruct Hh; tauto).
  cbv [bind read_hdr]. replace (sz <=? size (get_hdr s (HEAD s))) with false
    by (symmetry; apply Z.leb_gt; exact Hc).
  rewrite Hn. reflexivity.
Qed.

Lemma tumalloc_reuse_exact f s sz :
  HEAD s <> NULL -> next (get_hdr s (HEAD s)) = NULL ->
  0 < sz -> sz + HDR < W -> 0 <= HEAD s < W - HDR ->
  sz <= size (get_hdr s (HEAD s)) < sz + HDR ->
  tumalloc (S f) sz s = Some (HEAD s + HDR, set_HEAD_s NULL s).
Proof.
  intros Hne Hn Hsz Hw Hh [Hle Hlt]. unfold tumalloc.
  replace (sz =? 0) with false by (symmetry; apply Z.eqb_neq; lia).
  unfold bind, get_HEAD. cbn [tumalloc_loop].
  replace (HEAD s =? NULL) with false by (symmetry; apply Z.eqb_neq; exact Hne).
  cbv [bind read_hdr]. replace (sz <=? size (get_hdr s (HEAD s))) with true
    by (symmetry; apply Z.leb_le; exact Hle).
  unfold remove_free_block, bind, get_HEAD, read_hdr, set_HEAD. rewrite Z.eqb_refl.
  rewrite Hn, get_hdr_set_HEAD.
  rewrite (wrap_small (sz + HDR)) by (unfold W in *; lia).
  replace (sz + HDR <=? size (get_hdr s (HEAD s))) with false
    by (symmetry; apply Z.leb_gt; exact Hlt).
  unfold ret. cbn [HEAD set_HEAD_s].
  rewrite (wrap_small (HEAD s + HDR)) by lia. reflexivity.
Qed.

Lemma tumalloc_split_exact f s sz :
  HEAD s <> NULL -> next (get_hdr s (HEAD s)) = NULL ->
  0 < sz < 2 ^ 31 -> 0 <= HEAD s ->
  sz + HDR <= size (get_hdr s (HEAD s)) ->
  HEAD s + size (get_hdr s (HEAD s)) + HDR < W ->
  tumalloc (S f) sz s =
    Some (HEAD s + HDR,
          mk_state (HEAD s + sz + HDR)
            (<[HEAD s + sz + HDR := mk_block (size (get_hdr s (HEAD s)) - sz - HDR) NULL]>
             (<[HEAD s := mk_block sz NULL]> (hdrs s)))
            (mem s) (brk s) (brk_base s) (brk_limit s)).
Proof.
  intros Hne Hn Hsz Hh Hfit Hend.
  set (h := HEAD s) in *. set (c := get_hdr s h) in *.
  unfold tumalloc.
  replace (sz =? 0) with false by (symmetry; apply Z.eqb_neq; lia).
  unfold bind, get_HEAD. fold h. cbn [tumalloc_loop].
  replace (h =? NULL) with false by (symmetry; apply Z.eqb_neq; exact Hne).
  cbv [bind read_hdr]. fold c.
  replace (sz <=? size c) with true by (symmetry; apply Z.leb_le; unfold HDR in *; lia).
  unfold remove_free_block, bind, get_HEAD, read_hdr, set_HEAD. fold h. rewrite Z.eqb_refl.
  fold c. rewrite Hn, get_hdr_set_HEAD. fold c.
  rewrite (wrap_small (sz + HDR)) by (unfold W, HDR in *; lia).
  replace (sz + HDR <=? size c) with true by (symmetry; apply Z.leb_le; exact Hfit).
  rewrite to_int_small by lia.
  rewrite (split_exact (set_HEAD_s NULL s) h sz);
    [| lia | lia | unfold HDR in *; lia | rewrite get_hdr_set_HEAD; fold c; unfold HDR in *; lia].
  rewrite get_hdr_set_HEAD. fold c.
  replace (size c <? sz + HDR) with false by (symmetry; apply Z.ltb_ge; exact Hfit).
  cbn [HEAD hdrs set_hdrs_s set_HEAD_s]. rewrite Hn.
  cbv [ret write_next set_HEAD_s set_hdrs_s get_hdr]. cbn [HEAD hdrs].
  rewrite (wrap_small (h + sz + HDR)) by (unfold W, HDR in *; lia).
  rewrite (wrap_small (h + HDR)) by (unfold W, HDR in *; lia).
  assert (Hp : h <> h + sz + HDR) by (unfold HDR; lia).
  change (NULL =? NULL) with true. cbn [HEAD hdrs mem brk brk_base brk_limit orb].
  rewrite lookup_insert_ne by exact Hp. rewrite lookup_insert_eq. cbn.
  rewrite (insert_insert_ne _ h (h + sz + HDR)) by exact Hp.
  rewrite insert_insert_eq. reflexivity.
Qed.

Lemma tufree_push_exact fuel s ptr :
  bounds s -> head_inv s -> ptr <> NULL ->
  wrap (wrap (ptr - HDR) + size (get_hdr s (wrap (ptr - HDR))) + HDR) <> brk s ->
  tufree fuel ptr s =
    Some (tt, set_HEAD_s (wrap (ptr - HDR))
                (set_hdrs_s (<[wrap (ptr - HDR) :=
                   mk_block (size (get_hdr s (wrap (ptr - HDR)))) NULL]> (hdrs s)) s)).
Proof.
  intros Hb Hh Hp Hend. unfold tufree. cbv zeta.
  set (tmp := wrap (ptr - HDR)) in *.
  replace (ptr =? NULL) with false by (symmetry; apply Z.eqb_neq; exact Hp).
  unfold bind at 1. rewrite sbrk_zero by exact Hb.
  cbv [bind read_hdr get_HEAD ret].
  replace (wrap (tmp + size (get_hdr s tmp) + HDR) =? brk s) with false
    by (symmetry; apply Z.eqb_neq; exact Hend).
  destruct (Z.eqb_spec (HEAD s) NULL) as [E|E].
  - reflexivity.
  - assert (Hn : next (get_hdr s (HEAD s)) = NULL) by (destruct Hh; tauto).
    rewrite Hn. reflexivity.
Qed.

Lemma tufree_nonnull_tail fuel s ptr :
  ptr <> NULL ->
  tufree fuel ptr s =
    (let tmp := wrap (ptr - HDR) in
     let* programbreak := sbrk 0 in
     let* t := read_hdr tmp in
     if wrap (tmp + size t + HDR) =? programbreak then
       let* hd := get_HEAD in
       let* _ :=
         (if hd =? tmp then set_HEAD NULL
          else
            let* prev_pointer := find_prev fuel tmp in
            if prev_pointer =? NULL then ret tt
            else write_next prev_pointer NULL) in
       let* t2 := read_hdr tmp in
       let* _ := sbrk (to_intptr (wrap (- wrap (size t2 + HDR)))) in
       ret tt
     else
       let* hd := get_HEAD in
       let* hn := (if hd =? NULL then ret NULL
                   else let* h := read_hdr hd in ret (next h)) in
       if (hd =? NULL) || (hn =? NULL) then
         let* _ := write_next tmp NULL in set_HEAD tmp
       else
         let* _ := write_next tmp hd in
         let* r := coalesce fuel tmp in
         set_HEAD r) s.
Proof.
  intros Hp. unfold tufree. replace (ptr =? NULL) with false
    by (symmetry; apply Z.eqb_neq; exact Hp). reflexivity.
Qed.

Lemma malloc_free_round_trip_exact f g s n :
  bounds s -> HEAD s = NULL -> 0 < n -> brk s + n + HDR <= brk_limit s ->
  tumalloc (S f) n s =
    Some (brk s + HDR,
          mk_state NULL (<[brk s := mk_block n NULL]> (hdrs s)) (mem s)
                   (brk s + n + HDR) (brk_base s) (brk_limit s)) /\
  tufree (S g) (brk s + HDR)
    (mk_state NULL (<[brk s := mk_block n NULL]> (hdrs s)) (mem s)
              (brk s + n + HDR) (brk_base s) (brk_limit s)) =
    Some (tt, mk_state NULL (<[brk s := mk_block n NULL]> (hdrs s)) (mem s)
                       (brk s) (brk_base s) (brk_limit s)).
Proof.
  intros Hb Hh Hn Hfit. destruct Hb as (Hb0 & Hr & Hl) eqn:Hbnd.
  split.
  - unfold tumalloc. replace (n =? 0) with false by (symmetry; apply Z.eqb_neq; lia).
    cbv [bind get_HEAD]. rewrite Hh. cbn [tumalloc_loop]. change (NULL =? NULL) with true.
    cbv iota. rewrite <- Hh.
    rewrite do_alloc_exact by (auto; unfold HDR in *; lia).
    replace (brk s + n + HDR <=? brk_limit s) with true by (symmetry; apply Z.leb_le; lia).
    rewrite Hh. reflexivity.
  - set (s1 := mk_state NULL (<[brk s := mk_block n NULL]> (hdrs s)) (mem s)
                        (brk s + n + HDR) (brk_base s) (brk_limit s)).
    assert (Hb1 : bounds s1) by (unfold bounds, s1; simpl; unfold HDR in *; lia).
    rewrite tufree_nonnull_tail by (unfold NULL, HDR; lia). cbv zeta.
    replace (wrap (brk s + HDR - HDR)) with (brk s)
      by (rewrite wrap_small; [lia | unfold W; lia]).
    unfold bind at 1. rewrite sbrk_zero by exact Hb1.
    assert (Hg : get_hdr s1 (brk s) = mk_block n NULL)
      by (unfold get_hdr, s1; simpl; rewrite lookup_insert_eq; reflexivity).
    cbv [bind read_hdr get_HEAD]. rewrite Hg. cbn [size next HEAD].
    change (brk s1) with (brk s + n + HDR). change (HEAD s1) with NULL.
    rewrite (wrap_small (brk s + n + HDR)) by (unfold W, HDR in *; lia).
    rewrite Z.eqb_refl. change (HEAD s1) with NULL.
    replace (NULL =? brk s) with false by (symmetry; apply Z.eqb_neq; unfold NULL; lia).
    cbv [find_prev bind get_HEAD ret read_hdr]. change (HEAD s1) with NULL.
    cbn [find_prev_loop]. cbv [ret]. repeat (rewrite (Z.eqb_refl NULL); cbv beta iota).
    rewrite Hg. cbn [size].
    destruct (contract_amount (brk s) n (brk s + n + HDR)) as [_ Hi];
      [unfold HDR in *; lia | lia | rewrite wrap_small; [lia | unfold W, HDR in *; lia] |].
    rewrite Hi. replace (- (brk s + n + HDR - brk s)) with (- (brk s1 - brk s))
      by (unfold s1; simpl; lia).
    rewrite sbrk_contract by (auto; unfold s1; simpl; unfold HDR in *; lia).
    reflexivity.
Qed.

Lemma list_from_S n s curr :
  list_from (S n) s curr =
    if curr =? NULL then [] else curr :: list_from n s (next (get_hdr s curr)).
Proof. reflexivity. Qed.

Lemma find_prev_loop_spec fuel s curr block r s' :
  find_prev_loop fuel curr block s = Some (r, s') ->
  s' = s /\
  ((r = NULL /\
    forall c, c ∈ list_from fuel s curr -> wrap (c + size (get_hdr s c) + HDR) <> block) \/
   (exists l1 l2, list_from fuel s curr = l1 ++ r :: l2 /\ r <> NULL /\
      wrap (r + size (get_hdr s r) + HDR) = block /\
      forall c, c ∈ l1 -> wrap (c + size (get_hdr s c) + HDR) <> block)).
Proof.
  revert curr. induction fuel as [|f IH]; intros curr H; [discriminate |].
  cbn [find_prev_loop] in H. rewrite list_from_S.
  destruct (Z.eqb_spec curr NULL) as [E|E].
  - prim H. split; [reflexivity |]. left. split; [reflexivity |]. intros c Hc.
    apply not_elem_of_nil in Hc. contradiction.
  - step H. prim Hs.
    destruct (Z.eqb_spec (wrap (curr + size (get_hdr s curr) + HDR)) block) as [Eb|Eb].
    + prim H. split; [reflexivity |]. right. exists [], (list_from f s (next (get_hdr s curr))).
      split; [reflexivity |]. split; [exact E |]. split; [exact Eb |].
      intros c Hc. apply not_elem_of_nil in Hc. contradiction.
    + apply IH in H as [-> [[-> Hall] | (l1 & l2 & Hl & Hr & Hend & Hpre)]].
      * split; [reflexivity |]. left. split; [reflexivity |].
        intros c Hc. apply elem_of_cons in Hc as [->|Hc]; [exact Eb | exact (Hall c Hc)].
      * split; [reflexivity |]. right. exists (curr :: l1), l2.
        split; [rewrite Hl; reflexivity |]. split; [exact Hr |]. split; [exact Hend |].
        intros c Hc. apply elem_of_cons in Hc as [->|Hc]; [exact Eb | exact (Hpre c Hc)].
Qed.

Lemma list_from_no_null n s curr : NULL ∉ list_from n s curr.
Proof.
  revert curr. induction n as [|n IH]; intros curr; [apply not_elem_of_nil |].
  rewrite list_from_S. destruct (Z.eqb_spec curr NULL) as [E|E]; [apply not_elem_of_nil |].
  rewrite elem_of_cons. intros [Hc|Hc]; [congruence | exact (IH _ Hc)].
Qed.

Lemma find_next_loop_spec fuel s curr be r s' :
  find_next_loop fuel curr be s = Some (r, s') ->
  s' = s /\
  ((r = NULL /\ be ∉ list_from fuel s curr) \/ (r = be /\ be ∈ list_from fuel s curr)).
Proof.
  revert curr. induction fuel as [|f IH]; intros curr H; [discriminate |].
  cbn [find_next_loop] in H. rewrite list_from_S.
  destruct (Z.eqb_spec curr NULL) as [E|E].
  - prim H. split; [reflexivity |]. left. split; [reflexivity | apply not_elem_of_nil].
  - destruct (Z.eqb_spec curr be) as [Eb|Eb].
    + prim H. split; [reflexivity |]. right. split; [exact Eb |].
      rewrite Eb. apply list_elem_of_here.
    + step H. prim Hs. apply IH in H as [-> [[-> Hn] | [-> Hin]]].
      * split; [reflexivity |]. left. split; [reflexivity |].
        rewrite elem_of_cons. intros [Hc|Hc]; [congruence | exact (Hn Hc)].
      * split; [reflexivity |]. right. split; [reflexivity |].
        apply list_elem_of_further. exact Hin.
Qed.

Lemma remove_loop_spec fuel s curr b u s' :
  remove_loop fuel curr b s = Some (u, s') ->
  (s' = s /\ forall c, c ∈ list_from fuel s curr -> next (get_hdr s c) <> b) \/
  (exists l1 c l2, list_from fuel s curr = l1 ++ c :: l2 /\
     (forall c', c' ∈ l1 -> next (get_hdr s c') <> b) /\ next (get_hdr s c) = b /\
     s' = set_hdrs_s (<[c := mk_block (size (get_hdr s c)) (next (get_hdr s b))]> (hdrs s)) s).
Proof.
  revert curr. induction fuel as [|f IH]; intros curr H; [discriminate |].
  cbn [remove_loop] in H. rewrite list_from_S.
  destruct (Z.eqb_spec curr NULL) as [E|E].
  - prim H. left. split; [reflexivity |]. intros c Hc.
    apply not_elem_of_nil in Hc. contradiction.
  - step H. prim Hs.
    destruct (Z.eqb_spec (next (get_hdr s curr)) b) as [Eb|Eb].
    + step H. prim Hs. prim H. right.
      exists [], curr, (list_from f s (next (get_hdr s curr))).
      split; [reflexivity |]. split; [intros c' Hc'; apply not_elem_of_nil in Hc'; contradiction |].
      split; [exact Eb | reflexivity].
    + apply IH in H as [[-> Hall] | (l1 & c & l2 & Hl & Hpre & Hc & ->)].
      * left. split; [reflexivity |].
        intros c Hc. apply elem_of_cons in Hc as [->|Hc]; [exact Eb | exact (Hall c Hc)].
      * right. exists (curr :: l1), c, l2.
        split; [rewrite Hl; reflexivity |].
        split; [| split; [exact Hc | reflexivity]].
        intros c' Hc'. apply elem_of_cons in Hc' as [->|Hc']; [exact Eb | exact (Hpre c' Hc')].
Qed.

(** *** Payload bytes *)

Definition mem_is (m : gmap Z Z) (s : state) : Prop := mem s = m.

Lemma mem_is_set_HEAD m h : preserves (mem_is m) (set_HEAD h).
Proof. intros s y s' HP H. injection H as _ <-. exact HP. Qed.
Lemma mem_is_write_size m a v : preserves (mem_is m) (write_size a v).
Proof. intros s y s' HP H. injection H as _ <-. exact HP. Qed.
Lemma mem_is_write_next m a v : preserves (mem_is m) (write_next a v).
Proof. intros s y s' HP H. injection H as _ <-. exact HP. Qed.
Lemma mem_is_sbrk m incr : preserves (mem_is m) (sbrk incr).
Proof.
  intros s y s' HP H. unfold sbrk in H.
  destruct (_ && _); injection H as _ <-; exact HP.
Qed.

#[local] Hint Resolve mem_is_set_HEAD mem_is_write_size mem_is_write_next mem_is_sbrk : alloc.

Lemma mem_is_remove_loop m fuel curr block : preserves (mem_is m) (remove_loop fuel curr block).
Proof. revert curr. induction fuel; intros curr; simpl; decompose_m; eauto with alloc. Qed.

#[local] Hint Resolve mem_is_remove_loop : alloc.

Lemma mem_is_split m block n : preserves (mem_is m) (split block n).
Proof. unfold split. decompose_m; eauto with alloc. Qed.
Lemma mem_is_remove_free_block m fuel block : preserves (mem_is m) (remove_free_block fuel block).
Proof. unfold remove_free_block. decompose_m; eauto with alloc. Qed.
Lemma mem_is_coalesce m fuel block : preserves (mem_is m) (coalesce fuel block).
Proof. unfold coalesce. decompose_m; eauto with alloc. Qed.
Lemma mem_is_do_alloc m sz : preserves (mem_is m) (do_alloc sz).
Proof. unfold do_alloc. decompose_m; eauto with alloc. Qed.

#[local] Hint Resolve mem_is_split mem_is_remove_free_block mem_is_coalesce mem_is_do_alloc : alloc.

Lemma mem_is_tumalloc_loop m fuel curr sz : preserves (mem_is m) (tumalloc_loop fuel curr sz).
Proof. revert curr. induction fuel; intros curr; simpl; decompose_m; eauto with alloc. Qed.

#[local] Hint Resolve mem_is_tumalloc_loop : alloc.

Lemma mem_is_tumalloc m fuel sz : preserves (mem_is m) (tumalloc fuel sz).
Proof. unfold tumalloc. decompose_m; eauto with alloc. Qed.
Lemma mem_is_tufree m fuel ptr : preserves (mem_is m) (tufree fuel ptr).
Proof. unfold tufree. decompose_m; eauto with alloc. Qed.

Lemma tumalloc_mem fuel sz s p s' : tumalloc fuel sz s = Some (p, s') -> mem s' = mem s.
Proof. intros H. exact (mem_is_tumalloc (mem s) fuel sz s p s' eq_refl H). Qed.
Lemma tufree_mem fuel ptr s u s' : tufree fuel ptr s = Some (u, s') -> mem s' = mem s.
Proof. intros H. exact (mem_is_tufree (mem s) fuel ptr s u s' eq_refl H). Qed.

Lemma memset_loop_bytes p v n s u s' :
  0 <= p -> p + Z.of_nat n <= W -> memset_loop p v n s = Some (u, s') ->
  forall a, read_byte s' a =
            if (p <=? a) && (a <? p + Z.of_nat n) then v else read_byte s a.
Proof.
  revert p s. induction n as [|n IH]; intros p s Hp Hn H a.
  - injection H as _ <-. replace (p + Z.of_nat 0) with p by lia.
    destruct (Z.leb_spec p a); destruct (Z.ltb_spec a p); try lia; reflexivity.
  - cbn [memset_loop] in H. step H. cbv [write_byte] in Hs. injection Hs as _ <-.
    rewrite (wrap_small p) in H by lia.
    rewrite (IH (p + 1) _ ltac:(lia) ltac:(lia) H a).
    unfold read_byte. simpl. rewrite lookup_insert.
    destruct (decide (p = a)) as [<-|Hne].
    + destruct (Z.leb_spec (p + 1) p); destruct (Z.leb_spec p p);
        destruct (Z.ltb_spec p (p + Z.of_nat (S n))); try lia; reflexivity.
    + destruct (Z.leb_spec (p + 1) a); destruct (Z.ltb_spec a (p + 1 + Z.of_nat n));
        destruct (Z.leb_spec p a); destruct (Z.ltb_spec a (p + Z.of_nat (S n)));
        simpl; try lia; reflexivity.
Qed.

Lemma tumalloc_loop_range fuel curr sz s p s' :
  tumalloc_loop fuel curr sz s = Some (p, s') -> 0 <= p < W.
Proof.
  revert curr s. induction fuel as [|f IH]; intros curr s H; [discriminate |].
  cbn [tumalloc_loop] in H.
  destruct (curr =? NULL).
  - unfold do_alloc in H. destruct (sz =? 0); [prim H; unfold NULL, W; lia |].
    cbv zeta in H. step H. destruct (x =? SBRK_ERR); [prim H; unfold NULL, W; lia |].
    step H. step H. prim H. apply wrap_range.
  - step H. prim Hs. destruct (sz <=? _).
    + step H. step H. step H. prim H. apply wrap_range.
    + exact (IH _ _ H).
Qed.

Lemma tumalloc_range fuel sz s p s' : tumalloc fuel sz s = Some (p, s') -> 0 <= p < W.
Proof.
  unfold tumalloc. intros H. destruct (sz =? 0); [prim H; unfold NULL, W; lia |].
  step H. exact (tumalloc_loop_range _ _ _ _ _ _ H).
Qed.

Lemma read_byte_set_mem m s a : read_byte (set_mem_s m s) a = default 0 (m !! a).
Proof. reflexivity. Qed.

Lemma memcpy_loop_spec d src n s :
  0 <= d -> d + Z.of_nat n <= W -> 0 <= src -> src + Z.of_nat n <= W ->
  d + Z.of_nat n <= src \/ src + Z.of_nat n <= d ->
  exists m, memcpy_loop d src n s = Some (tt, set_mem_s m s) /\
    (forall i, 0 <= i < Z.of_nat n -> default 0 (m !! (d + i)) = read_byte s (src + i)) /\
    (forall a, ~ (d <= a < d + Z.of_nat n) -> m !! a = mem s !! a).
Proof.
  revert d src s. induction n as [|n IH]; intros d src s Hd Hdn Hs Hsn Hdis.
  - exists (mem s). split; [destruct s; reflexivity |]. split; [lia | reflexivity].
  - set (s1 := set_mem_s (<[d := read_byte s src]> (mem s)) s).
    destruct (IH (d + 1) (src + 1) s1) as (m & Hrun & Hcp & Hout); try lia.
    exists m. split; [| split].
    + cbn [memcpy_loop]. cbv [bind load_byte write_byte].
      rewrite (wrap_small src), (wrap_small d) by lia.
      fold s1. rewrite Hrun. destruct s; reflexivity.
    + intros i Hi. destruct (Z.eq_dec i 0) as [->|Hi0].
      * rewrite Hout by lia. unfold s1. simpl.
        rewrite Z.add_0_r, lookup_insert_eq, Z.add_0_r. reflexivity.
      * replace (d + i) with (d + 1 + (i - 1)) by lia. rewrite Hcp by lia.
        unfold s1, read_byte. simpl. rewrite lookup_insert_ne by lia.
        f_equal. f_equal. lia.
    + intros a Ha. rewrite Hout by lia. unfold s1. simpl.
      rewrite lookup_insert_ne by lia. reflexivity.
Qed.

Lemma tumalloc_empty f s sz :
  HEAD s = NULL -> sz <> 0 -> tumalloc (S f) sz s = do_alloc sz s.
Proof.
  intros Hh Hsz. unfold tumalloc.
  replace (sz =? 0) with false by (symmetry; apply Z.eqb_neq; exact Hsz).
  cbv [bind get_HEAD]. rewrite Hh. reflexivity.
Qed.

(** *** Recorded sizes *)

Definition covers (a sz : Z) (s : state) : Prop := sz <= size (get_hdr s a).

Lemma covers_set_HEAD a sz h : preserves (covers a sz) (set_HEAD h).
Proof. intros s y s' HP H. injection H as _ <-. exact HP. Qed.
Lemma covers_write_next a sz b v : preserves (covers a sz) (write_next b v).
Proof.
  intros s y s' HP H. injection H as _ <-. unfold covers in *.
  rewrite get_hdr_insert. destruct (decide (b = a)) as [<-|]; [exact HP | exact HP].
Qed.

#[local] Hint Resolve covers_set_HEAD covers_write_next : alloc.

Lemma covers_remove_loop a sz fuel curr block :
  preserves (covers a sz) (remove_loop fuel curr block).
Proof. revert curr. induction fuel; intros curr; simpl; decompose_m; eauto with alloc. Qed.

#[local] Hint Resolve covers_remove_loop : alloc.

Lemma covers_remove_free_block a sz fuel block :
  preserves (covers a sz) (remove_free_block fuel block).
Proof. unfold remove_free_block. decompose_m; eauto with alloc. Qed.

Lemma covers_split a sz :
  0 <= sz < W -> preserves (covers a sz) (split a sz).
Proof.
  intros Hsz s x s' HP H. unfold split in H. step H. prim Hs.
  destruct (_ <? _); [prim H; exact HP |]. cbv zeta in H.
  step H. prim Hs. step H. cbv [write_size] in Hs. injection Hs as <- <-.
  step H. prim Hs. step H. cbv [write_next] in Hs. injection Hs as <- <-.
  step H. cbv [write_size] in Hs. injection Hs as <- <-. prim H.
  unfold covers, get_hdr. cbn [hdrs set_hdrs_s]. rewrite lookup_insert_eq. simpl.
  rewrite wrap_small by exact Hsz. lia.
Qed.

Lemma do_alloc_covers sz s p s' :
  0 <= brk s < 2 ^ 63 -> do_alloc sz s = Some (p, s') -> p <> NULL ->
  sz <= size (get_hdr s' (wrap (p - HDR))).
Proof.
  intros Hb H Hp. unfold do_alloc in H.
  destruct (sz =? 0); [prim H; contradiction |]. cbv zeta in H.
  step H. apply sbrk_cases in Hs as [[-> ->] | [-> ->]].
  - rewrite Z.eqb_refl in H. prim H. contradiction.
  - destruct (_ =? SBRK_ERR); [prim H; contradiction |].
    step H. cbv [write_size] in Hs. injection Hs as <- <-.
    step H. cbv [write_next] in Hs. injection Hs as <- <-. prim H.
    rewrite (wrap_small (brk s + HDR)) by (unfold W, HDR; lia).
    rewrite (wrap_small (brk s + HDR - HDR)) by (unfold W, HDR; lia).
    replace (brk s + HDR - HDR) with (brk s) by lia.
    unfold get_hdr. cbn [hdrs set_hdrs_s set_brk_s]. rewrite !lookup_insert_eq. simpl. lia.
Qed.

Lemma tumalloc_loop_covers fuel curr sz s p s' :
  addr_ok s -> 0 < sz < 2 ^ 31 ->
  tumalloc_loop fuel curr sz s = Some (p, s') -> p <> NULL ->
  sz <= size (get_hdr s' (wrap (p - HDR))).
Proof.
  intros [Hb Hk] Hsz. revert curr.
  induction fuel as [|f IH]; intros curr H Hp; [discriminate |]. cbn [tumalloc_loop] in H.
  destruct (curr =? NULL); [eapply do_alloc_covers; eauto |].
  step H. prim Hs.
  destruct (sz <=? size (get_hdr s curr)) eqn:Efit.
  - apply Z.leb_le in Efit.
    assert (Hin : 0 <= curr < 2 ^ 63).
    { unfold get_hdr in Efit. destruct (hdrs s !! curr) eqn:Ec.
      - exact (Hk _ _ Ec).
      - simpl in Efit. lia. }
    step H. assert (H1 : covers curr sz s0)
      by exact (covers_remove_free_block curr sz _ _ _ _ _ Efit Hs).
    clear Hs. step H. prim Hs. step H. prim H.
    rewrite (wrap_small (curr + HDR)) by (unfold W, HDR; lia).
    rewrite (wrap_small (curr + HDR - HDR)) by (unfold W, HDR; lia).
    replace (curr + HDR - HDR) with curr by lia.
    destruct (_ <=? _); [| prim Hs; exact H1].
    step Hs. rewrite to_int_small in Hs0 by lia.
    pose proof (covers_split curr sz ltac:(unfold W; lia) _ _ _ H1 Hs0) as H2.
    clear Hs0 H1. cbv zeta in Hs. change (covers curr sz s1). by_pres Hs H2.
  - exact (IH _ H Hp).
Qed.

Lemma reachable_run fuel cs s rs s' :
  reachable s -> Forall call_ok cs -> run_calls fuel cs s = Some (rs, s') -> reachable s'.
Proof.
  revert s rs. induction cs as [|c cs IH]; intros s rs Hr Hok H.
  - injection H as _ <-. exact Hr.
  - inversion Hok as [|? ? Hc Hcs]; subst. cbn [run_calls] in H.
    apply bind_Some in H as (r & s1 & H1 & H). apply bind_Some in H as (rs' & s2 & H2 & H).
    injection H as _ <-. exact (IH s1 rs' (reach_step s c fuel r s1 Hr Hc H1) Hcs H2).
Qed.

Lemma reachable_after fuel cs s :
  reachable s -> Forall call_ok cs -> run_calls fuel cs s <> None ->
  reachable (after fuel cs s).
Proof.
  intros Hr Hok Hrun. unfold after.
  destruct (run_calls fuel cs s) as [[rs s']|] eqn:E; [| contradiction].
  exact (reachable_run fuel cs s rs s' Hr Hok E).
Qed.

Lemma find_prev_spec_aux fuel block s r s' :
  find_prev fuel block s = Some (r, s') ->
  s' = s /\
  ((r = NULL /\
    forall c, c ∈ free_list fuel s -> wrap (c + size (get_hdr s c) + HDR) <> block) \/
   (exists l1 l2, free_list fuel s = l1 ++ r :: l2 /\ r <> NULL /\
      wrap (r + size (get_hdr s r) + HDR) = block /\
      forall c, c ∈ l1 -> wrap (c + size (get_hdr s c) + HDR) <> block)).
Proof. intros H. unfold find_prev in H. step H. prim Hs. exact (find_prev_loop_spec _ _ _ _ _ _ H). Qed.
End AllocFacts.

Module Claims.
Import Alloc AllocFacts.

(** C4 (code bug).  Releasing the trailing block d of [linked_pair], whose
    free list is c then b, with d not on the list: [find_prev(d)] returns
    c, the free block physically before d, and [tufree] sets [c->next] to
    NULL, so b is dropped from the free list although only d is released;
    the break contracts by [d.size + 16] = 17. *)
Theorem tufree_trailing_cuts_list :
  free_list 10 linked_pair = [4096 + 2 ^ 32 + 48; 4096] /\
  wrap (4096 + 2 ^ 32 + 65 + size (get_hdr linked_pair (4096 + 2 ^ 32 + 65)) + HDR) =
    brk linked_pair /\
  match tufree 100 (4096 + 2 ^ 32 + 81) linked_pair with
  | Some (_, s') =>
      free_list 10 s' = [4096 + 2 ^ 32 + 48] /\
      next (get_hdr s' (4096 + 2 ^ 32 + 48)) = NULL /\
      brk s' = brk linked_pair - 17
  | None => False
  end.
Proof. vm_compute. repeat split. Qed.

(** The model runs the first six steps of the C program behind
    [linked_pair] as C does: block headers, break and the head L agree, and
    the client's byte 40 sits at L, where C reads it as L's size (the model
    keeps the header written at L apart, with size 0). *)
Lemma linked_pair_prefix :
  holds_after 100 [Malloc (2 ^ 32 + 32); Store (4112 + 2 ^ 32 + 5) 40; Malloc 1; Malloc 1;
                   Free 4112; Malloc (2 ^ 32 + 5)] start (fun s =>
    HEAD s = 4096 + 2 ^ 32 + 21 /\ brk s = 4096 + 2 ^ 32 + 82 /\
    get_hdr s 4096 = mk_block 5 NULL /\
    get_hdr s (4096 + 21) = mk_block (2 ^ 32 + 11) NULL /\
    get_hdr s (4096 + 2 ^ 32 + 48) = mk_block 1 NULL /\
    get_hdr s (4096 + 2 ^ 32 + 65) = mk_block 1 NULL /\
    next (get_hdr s (4096 + 2 ^ 32 + 21)) = NULL /\
    read_byte s (4096 + 2 ^ 32 + 21) = 40).
Proof. vm_compute. repeat split. Qed.

(** C7.  [tumalloc(0)], [tucalloc(0, k)], [tucalloc(k, 0)] and [tucalloc]
    with an overflowing product return NULL and leave the whole state (free
    list, headers, payload bytes, break) unchanged. *)
Theorem zero_and_overflow_guards fuel s k :
  tumalloc fuel 0 s = Some (NULL, s) /\
  tucalloc fuel 0 k s = Some (NULL, s) /\
  tucalloc fuel k 0 s = Some (NULL, s) /\
  (forall count elemSize,
     0 <= count < W -> 0 <= elemSize < W -> W <= count * elemSize ->
     tucalloc fuel count elemSize s = Some (NULL, s)).
Proof.
  split; [reflexivity |]. split; [reflexivity |].
  split; [unfold tucalloc; rewrite orb_true_r; reflexivity |].
  intros c e Hc He Hov. unfold tucalloc.
  assert (Hc0 : c <> 0) by (intros ->; lia).
  assert (He0 : e <> 0) by (intros ->; lia).
  apply Z.eqb_neq in Hc0, He0. rewrite Hc0, He0. simpl.
  assert (Hq : (W - 1) / e < c) by (apply Z.div_lt_upper_bound; lia).
  apply Z.eqb_neq in Hc0, He0.
  replace (0 <? c) with true by (symmetry; apply Z.ltb_lt; lia).
  replace (0 <? e) with true by (symmetry; apply Z.ltb_lt; lia).
  apply Z.ltb_lt in Hq. rewrite Hq. reflexivity.
Qed.

(** C8.  When [turealloc] must allocate (the new size exceeds the recorded
    one) and that allocation fails, it returns NULL and the state is
    unchanged: the old header, its payload bytes and the free list (the old
    block stays allocated). *)
Theorem turealloc_failure_keeps_block fuel s ptr n s' :
  addr_ok s -> ptr <> NULL -> 0 <= n ->
  size (get_hdr s (wrap (ptr - HDR))) < n ->
  turealloc fuel ptr n s = Some (NULL, s') -> s' = s.
Proof.
  intros Ha Hp Hn Hlt H. unfold turealloc in H. cbv zeta in H.
  apply Z.eqb_neq in Hp. rewrite Hp in H. simpl in H.
  destruct (n =? 0) eqn:En; [eapply tumalloc_null; eauto |].
  step H. prim Hs.
  replace (n <=? size (get_hdr s (wrap (ptr - HDR)))) with false in H
    by (symmetry; apply Z.leb_gt; exact Hlt).
  step H. destruct (x =? NULL) eqn:Ex.
  - apply Z.eqb_eq in Ex. subst x. prim H. eapply tumalloc_null; eauto.
  - step H. step H. step H. injection H as Hr _. subst x.
    rewrite Z.eqb_refl in Ex. discriminate.
Qed.

(** C9.  When the recorded size already covers a nonzero [new_size],
    [turealloc] returns the same pointer and changes nothing. *)
Theorem turealloc_fits_same_pointer fuel s ptr n :
  ptr <> NULL -> 0 < n -> n <= size (get_hdr s (wrap (ptr - HDR))) ->
  turealloc fuel ptr n s = Some (ptr, s).
Proof.
  intros Hp Hn Hle. unfold turealloc. cbv zeta.
  apply Z.eqb_neq in Hp. rewrite Hp.
  replace (n =? 0) with false by (symmetry; apply Z.eqb_neq; lia). simpl.
  unfold bind, read_hdr.
  replace (n <=? size (get_hdr s (wrap (ptr - HDR)))) with true
    by (symmetry; apply Z.leb_le; exact Hle).
  reflexivity.
Qed.

(** C10.  [turealloc(ptr, 0)] returns NULL and changes nothing: the block is
    not released, the free list and the break are unchanged. *)
Theorem turealloc_zero_keeps_block fuel s ptr :
  turealloc fuel ptr 0 s = Some (NULL, s).
Proof. unfold turealloc. cbv zeta. rewrite orb_true_r. reflexivity. Qed.

(** C1 (code bug).  [tucalloc(2, 8)] gets a recycled 16-byte block whose
    byte at offset 8 holds 7, and [memset(block, 0, size)] clears only the
    first 8 bytes: the byte at offset 8 of the 16-byte payload is still 7. *)
Theorem tucalloc_zero_fill_partial :
  holds_after 100 [Malloc 16; Malloc 1; Store 4120 7; Free 4112] start (fun s =>
    match tucalloc 100 2 8 s with
    | Some (p, s') =>
        p = 4112 /\ size (get_hdr s' (wrap (p - HDR))) = 16 /\
        read_byte s' p = 0 /\ read_byte s' (p + 8) = 7
    | None => False
    end).
Proof. vm_compute. repeat split. Qed.

(** C2 (code bug).  With one entry (block 4096) on the free list, releasing
    the non-trailing block 4122 makes it the sole entry: the old head is
    not chained behind it, and no coalescing happens although 4096 ends
    exactly at 4122. *)
Theorem tufree_single_entry_drops_head :
  holds_after 100 [Malloc 10; Malloc 10; Malloc 10; Free 4112] start (fun s =>
    free_list 10 s = [4096] /\ wrap (4096 + size (get_hdr s 4096) + HDR) = 4122 /\
    match tufree 100 4138 s with
    | Some (_, s') =>
        free_list 10 s' = [4122] /\ free_sizes 10 s' = [10] /\
        brk s' = brk s
    | None => False
    end).
Proof. vm_compute. repeat split. Qed.

(** C3 (code bug).  Blocks of 100 and 50 bytes carved in turn from the heap
    (a third block behind them keeps them away from the break) are
    physically adjacent; releasing both, in either order, leaves one free
    block of 50 or of 100 bytes, never one of 100 + 50 + 16. *)
Theorem release_adjacent_pair_no_merge :
  holds_after 100 [Malloc 100; Malloc 50; Malloc 10] start (fun s =>
    wrap (4096 + size (get_hdr s 4096) + HDR) = 4212 /\
    size (get_hdr s 4212) = 50 /\
    holds_after 100 [Free 4112; Free 4228] s (fun s1 => free_sizes 10 s1 = [50]) /\
    holds_after 100 [Free 4228; Free 4112] s (fun s2 => free_sizes 10 s2 = [100])).
Proof. vm_compute. repeat split. Qed.

(** C5 (code bug).  [split] takes its size as an [int]: for a request
    S = 2^32 + 5 served by a free block of F = 2^32 + 121 bytes, [split]
    truncates the block to 5 bytes and writes the remainder header 21 bytes
    after the block start, while [tumalloc] pushes the address right after
    the requested S bytes as the new head, whose size field no one wrote
    (it is not F - S - 16 = 100). *)
Theorem tumalloc_split_int_truncation :
  holds_after 100 [Malloc (2 ^ 32 + 121); Malloc 1; Free 4112] start (fun s =>
    free_list 10 s = [4096] /\ size (get_hdr s 4096) = 2 ^ 32 + 121 /\
    match tumalloc 100 (2 ^ 32 + 5) s with
    | Some (p, s') =>
        p = 4112 /\ size (get_hdr s' 4096) = 5 /\
        HEAD s' = p + (2 ^ 32 + 5) /\ hdrs s !! HEAD s' = None /\
        size (get_hdr s' (HEAD s')) = 0 /\
        size (get_hdr s' 4117) = 2 ^ 32 + 100
    | None => False
    end).
Proof. vm_compute. repeat split. Qed.

(** C6 (code bug).  Same defect: [tumalloc(2^32 + 5)] returns a non-null
    pointer whose block records a size of 5 bytes. *)
Theorem tumalloc_recorded_size_below_request :
  holds_after 100 [Malloc (2 ^ 32 + 121); Malloc 1; Free 4112] start (fun s =>
    match tumalloc 100 (2 ^ 32 + 5) s with
    | Some (p, s') => p <> NULL /\ size (get_hdr s' (wrap (p - HDR))) = 5
    | None => False
    end).
Proof. vm_compute. split; [discriminate | reflexivity]. Qed.

(** ** Witnesses: the hypotheses of the theorems hold on concrete runs *)

Lemma zero_and_overflow_guards_witness :
  tucalloc 100 (2 ^ 32) (2 ^ 32) start = Some (NULL, start).
Proof.
  apply (proj2 (proj2 (proj2 (zero_and_overflow_guards 100 start 0)))).
  - vm_compute. split; congruence.
  - vm_compute. split; congruence.
  - vm_compute. congruence.
Defined.

(** A heap limited to 8192 bytes cannot grow by 10000: the reallocation of a
    16-byte block to 10000 bytes fails and leaves the state as it was. *)
Lemma turealloc_failure_keeps_block_witness :
  exists s', turealloc 100 4112 10000 (after 100 [Malloc 16] (init_state 4096 8192)) =
               Some (NULL, s') /\
             s' = after 100 [Malloc 16] (init_state 4096 8192).
Proof.
  eexists. split; [vm_compute; reflexivity |].
  apply (turealloc_failure_keeps_block 100 _ 4112 10000).
  - apply addr_okb_sound. vm_compute. reflexivity.
  - vm_compute. congruence.
  - vm_compute. congruence.
  - vm_compute. reflexivity.
  - vm_compute. reflexivity.
Defined.

Lemma turealloc_fits_same_pointer_witness :
  turealloc 100 4112 10 (after 100 [Malloc 16] start) =
  Some (4112, after 100 [Malloc 16] start).
Proof.
  apply turealloc_fits_same_pointer.
  - vm_compute. congruence.
  - vm_compute. reflexivity.
  - vm_compute. congruence.
Defined.

End Claims.

Module Extras.
Import Alloc AllocFacts.

(** X2.  [do_alloc(size)] for [0 < size] with [size + 16] below 2^63 either
    extends the break by [size + 16], writes the header [{size, NULL}] at the
    old break and returns the address just after it, or, when the limit
    would be exceeded, returns NULL and changes nothing. *)
Theorem do_alloc_fresh_block s sz :
  bounds s -> 0 < sz -> sz + HDR < 2 ^ 63 ->
  do_alloc sz s =
    if brk s + sz + HDR <=? brk_limit s
    then Some (brk s + HDR,
               mk_state (HEAD s) (<[brk s := mk_block sz NULL]> (hdrs s)) (mem s)
                        (brk s + sz + HDR) (brk_base s) (brk_limit s))
    else Some (NULL, s).
Proof. intros Hb Hsz Hbig. exact (do_alloc_exact s sz Hb Hsz Hbig). Qed.

(** X3.  For a request within 16 bytes of [SIZE_MAX], [size + 16] wraps in
    [do_alloc]: the break grows by only [size + 16 - 2^64] bytes (fewer than
    16), yet the header records [size] and a non-null pointer is returned. *)
Theorem do_alloc_size_overflow s sz :
  bounds s -> W - HDR <= sz < W -> brk s + (sz + HDR - W) <= brk_limit s ->
  do_alloc sz s =
    Some (wrap (brk s + HDR),
          mk_state (HEAD s) (<[brk s := mk_block sz NULL]> (hdrs s)) (mem s)
                   (brk s + (sz + HDR - W)) (brk_base s) (brk_limit s)).
Proof. intros Hb Hsz Hfit. exact (do_alloc_wrapped s sz Hb Hsz Hfit). Qed.

(** X4.  When the free list is empty, or its only block (the head has no
    successor) is smaller than the request, [tumalloc] obtains the memory
    from [do_alloc] (a fresh block at the break). *)
Theorem tumalloc_falls_back_to_heap f s sz :
  head_inv s -> 0 < sz ->
  (HEAD s = NULL \/ size (get_hdr s (HEAD s)) < sz) ->
  tumalloc (S (S f)) sz s = do_alloc sz s.
Proof. intros Hh Hsz Hc. exact (tumalloc_fallback f s sz Hh Hsz Hc). Qed.

(** X5.  When the head block is the only free block and fits the request
    with fewer than 16 bytes to spare, [tumalloc] hands out the whole block:
    it returns the address after its header, empties the free list and
    changes nothing else. *)
Theorem tumalloc_reuses_whole_head f s sz :
  HEAD s <> NULL -> next (get_hdr s (HEAD s)) = NULL ->
  0 < sz -> sz + HDR < W -> 0 <= HEAD s < W - HDR ->
  sz <= size (get_hdr s (HEAD s)) < sz + HDR ->
  tumalloc (S f) sz s = Some (HEAD s + HDR, set_HEAD_s NULL s).
Proof.
  intros Hne Hn Hsz Hw Hh Hfit. exact (tumalloc_reuse_exact f s sz Hne Hn Hsz Hw Hh Hfit).
Qed.

(** X6.  When the head block is the only free block and has room for the
    request plus a header, a request below 2^31 bytes is carved from its
    front: the block's header records exactly the request, the rest becomes
    a block of [size - request - 16] bytes right behind it, which is the new
    sole free block, and the address after the first header is returned. *)
Theorem tumalloc_splits_head f s sz :
  HEAD s <> NULL -> next (get_hdr s (HEAD s)) = NULL ->
  0 < sz < 2 ^ 31 -> 0 <= HEAD s ->
  sz + HDR <= size (get_hdr s (HEAD s)) ->
  HEAD s + size (get_hdr s (HEAD s)) + HDR < W ->
  tumalloc (S f) sz s =
    Some (HEAD s + HDR,
          mk_state (HEAD s + sz + HDR)
            (<[HEAD s + sz + HDR := mk_block (size (get_hdr s (HEAD s)) - sz - HDR) NULL]>
             (<[HEAD s := mk_block sz NULL]> (hdrs s)))
            (mem s) (brk s) (brk_base s) (brk_limit s)).
Proof.
  intros Hne Hn Hsz Hh Hfit Hend. exact (tumalloc_split_exact f s sz Hne Hn Hsz Hh Hfit Hend).
Qed.

(** X7.  [split(block, size)] for [0 <= size < 2^31]: if the block is
    smaller than [size + 16] it returns NULL and changes nothing; otherwise
    it shrinks the block to [size] bytes, writes a header of
    [block.size - size - 16] bytes at [block + size + 16] with the block's
    old successor as link, and returns [block]. *)
Theorem split_carves_front s block n :
  0 <= block -> 0 <= n < 2 ^ 31 -> block + n + HDR < W ->
  0 <= size (get_hdr s block) < W ->
  split block n s =
    if size (get_hdr s block) <? n + HDR then Some (NULL, s)
    else Some (block, set_hdrs_s
      (<[block := mk_block n (next (get_hdr s block))]>
       (<[block + n + HDR := mk_block (size (get_hdr s block) - n - HDR)
                                      (next (get_hdr s block))]> (hdrs s))) s).
Proof. intros Hb Hn Hend Hsz. exact (split_exact s block n Hb Hn Hend Hsz). Qed.

(** X8.  When the free list has at most one entry (the head, if any, has
    no successor) and the break lies within its bounds, releasing a
    non-null pointer whose block does not end at the break makes that block
    the sole free block (its link set to NULL): the block previously on the
    free list is forgotten, [coalesce] is never reached, and nothing else
    changes. *)
Theorem tufree_non_trailing_sole_entry fuel s ptr :
  bounds s -> head_inv s -> ptr <> NULL ->
  wrap (wrap (ptr - HDR) + size (get_hdr s (wrap (ptr - HDR))) + HDR) <> brk s ->
  tufree fuel ptr s =
    Some (tt, set_HEAD_s (wrap (ptr - HDR))
                (set_hdrs_s (<[wrap (ptr - HDR) :=
                   mk_block (size (get_hdr s (wrap (ptr - HDR)))) NULL]> (hdrs s)) s)).
Proof. intros Hb Hh Hp Hend. exact (tufree_push_exact fuel s ptr Hb Hh Hp Hend). Qed.

(** X9.  With an empty free list, [tumalloc(n)] followed by [tufree] of
    the returned pointer gives the memory back: the block is carved at the
    break, and its release lowers the break to where it was and leaves the
    free list empty (the stale header stays in memory past the break). *)
Theorem malloc_free_round_trip f g s n :
  bounds s -> HEAD s = NULL -> 0 < n -> brk s + n + HDR <= brk_limit s ->
  tumalloc (S f) n s =
    Some (brk s + HDR,
          mk_state NULL (<[brk s := mk_block n NULL]> (hdrs s)) (mem s)
                   (brk s + n + HDR) (brk_base s) (brk_limit s)) /\
  tufree (S g) (brk s + HDR)
    (mk_state NULL (<[brk s := mk_block n NULL]> (hdrs s)) (mem s)
              (brk s + n + HDR) (brk_base s) (brk_limit s)) =
    Some (tt, mk_state NULL (<[brk s := mk_block n NULL]> (hdrs s)) (mem s)
                       (brk s) (brk_base s) (brk_limit s)).
Proof. intros Hb Hh Hn Hfit. exact (malloc_free_round_trip_exact f g s n Hb Hh Hn Hfit). Qed.

(** X10.  [find_prev(block)] only reads the state, and returns either NULL,
    when no block on the free list ends at [block], or the first block on
    the free list (in list order) that ends at [block]. *)
Theorem find_prev_first_predecessor fuel block s r s' :
  find_prev fuel block s = Some (r, s') ->
  s' = s /\
  ((r = NULL /\
    forall c, c ∈ free_list fuel s -> wrap (c + size (get_hdr s c) + HDR) <> block) \/
   (exists l1 l2, free_list fuel s = l1 ++ r :: l2 /\ r <> NULL /\
      wrap (r + size (get_hdr s r) + HDR) = block /\
      forall c, c ∈ l1 -> wrap (c + size (get_hdr s c) + HDR) <> block)).
Proof. intros H. exact (find_prev_spec_aux fuel block s r s' H). Qed.

(** X11.  [find_next(block)] only reads the state, and returns the address
    where [block] ends when a block of the free list starts there, and NULL
    otherwise. *)
Theorem find_next_adjacent_successor fuel block s r s' :
  find_next fuel block s = Some (r, s') ->
  s' = s /\
  ((r = NULL /\ wrap (block + size (get_hdr s block) + HDR) ∉ free_list fuel s) \/
   (r = wrap (block + size (get_hdr s block) + HDR) /\ r ∈ free_list fuel s)).
Proof.
  intros H. unfold find_next in H. step H. prim Hs. step H. prim Hs.
  apply find_next_loop_spec in H as [-> [[-> Hn] | [-> Hin]]].
  - split; [reflexivity |]. left. split; [reflexivity | exact Hn].
  - split; [reflexivity |]. right. split; [reflexivity | exact Hin].
Qed.

(** X12.  [remove_free_block(block)] changes at most one link: if [block]
    is the head, the head moves to its successor; otherwise the first block
    of the free list whose link is [block] gets [block]'s successor as its
    link (size kept); if there is none, nothing changes. *)
Theorem remove_free_block_unlinks fuel b s u s' :
  remove_free_block fuel b s = Some (u, s') ->
  (HEAD s = b /\ s' = set_HEAD_s (next (get_hdr s b)) s) \/
  (HEAD s <> b /\ s' = s /\ forall c, c ∈ free_list fuel s -> next (get_hdr s c) <> b) \/
  (HEAD s <> b /\
   exists l1 c l2, free_list fuel s = l1 ++ c :: l2 /\
     (forall c', c' ∈ l1 -> next (get_hdr s c') <> b) /\ next (get_hdr s c) = b /\
     s' = set_hdrs_s (<[c := mk_block (size (get_hdr s c)) (next (get_hdr s b))]> (hdrs s)) s).
Proof.
  intros H. unfold remove_free_block in H. step H. prim Hs.
  destruct (Z.eqb_spec (HEAD s) b) as [E|E].
  - step H. prim Hs. prim H. left. split; [exact E | reflexivity].
  - right. apply remove_loop_spec in H as [[-> Hall] | Hex].
    + left. split; [exact E |]. split; [reflexivity | exact Hall].
    + right. split; [exact E | exact Hex].
Qed.

(** X14.  When [tucalloc(num, size)] returns a non-null pointer [p], the
    [size] bytes [p .. p + size - 1] read 0 afterwards ([memset] is the
    last write of the call). *)
Theorem tucalloc_clears_elem_size_bytes fuel num sz s p s' :
  tucalloc fuel num sz s = Some (p, s') -> p <> NULL -> p + sz <= W ->
  forall a, p <= a < p + sz -> read_byte s' a = 0.
Proof.
  intros H Hp Hend a Ha.
  enough (E : read_byte s' a = if (p <=? a) && (a <? p + sz) then 0 else read_byte s a).
  { rewrite E. replace ((p <=? a) && (a <? p + sz)) with true; [reflexivity |].
    symmetry. apply andb_true_intro. split; [apply Z.leb_le | apply Z.ltb_lt]; lia. }
  unfold tucalloc in H.
  destruct (_ || _); [prim H; contradiction |].
  destruct (_ && _); [prim H; contradiction |].
  step H. pose proof (tumalloc_range _ _ _ _ _ Hs) as Hrange.
  pose proof (tumalloc_mem _ _ _ _ _ Hs) as Hmem.
  destruct (x =? NULL); [prim H; contradiction |].
  step H. prim H. unfold memset in Hs0.
  destruct (Z.lt_ge_cases sz 0) as [Hneg|Hpos].
  - replace (Z.to_nat sz) with 0%nat in Hs0 by lia. cbn [memset_loop] in Hs0. prim Hs0.
    unfold read_byte. rewrite Hmem.
    destruct (Z.leb_spec x a); destruct (Z.ltb_spec a (x + sz)); simpl; try lia; reflexivity.
  - rewrite (memset_loop_bytes x 0 (Z.to_nat sz) _ _ _ ltac:(lia) ltac:(lia) Hs0 a).
    rewrite Z2Nat.id by lia. unfold read_byte. rewrite Hmem. reflexivity.
Qed.

(** X15.  With an empty free list, growing a block that lies in the heap
    ([turealloc(ptr, n)] with [n] above its recorded size) moves it to a
    fresh block at the break: the new pointer is the old break plus 16, all
    the recorded bytes of the old block are copied, the new header records
    [n], and the old block becomes the sole free block. *)
Theorem turealloc_grow_copies f s ptr n :
  bounds s -> HEAD s = NULL ->
  brk_base s <= ptr - HDR -> ptr + size (get_hdr s (ptr - HDR)) <= brk s ->
  0 <= size (get_hdr s (ptr - HDR)) < n -> brk s + n + HDR <= brk_limit s ->
  exists s', turealloc (S f) ptr n s = Some (brk s + HDR, s') /\
    (forall i, 0 <= i < size (get_hdr s (ptr - HDR)) ->
       read_byte s' (brk s + HDR + i) = read_byte s (ptr + i)) /\
    HEAD s' = ptr - HDR /\ brk s' = brk s + n + HDR /\
    get_hdr s' (brk s) = mk_block n NULL /\
    get_hdr s' (ptr - HDR) = mk_block (size (get_hdr s (ptr - HDR))) NULL.
Proof.
  intros Hb Hh Hlo Hhi Hk Hfit. pose proof Hb as (Hb0 & Hr & Hl).
  set (k := size (get_hdr s (ptr - HDR))) in *.
  assert (Hw : wrap (ptr - HDR) = ptr - HDR) by (apply wrap_small; unfold W, HDR in *; lia).
  set (s1 := mk_state (HEAD s) (<[brk s := mk_block n NULL]> (hdrs s)) (mem s)
                      (brk s + n + HDR) (brk_base s) (brk_limit s)).
  assert (Hne : brk s <> ptr - HDR) by (unfold HDR in *; lia).
  assert (Hg1 : get_hdr s1 (ptr - HDR) = get_hdr s (ptr - HDR))
    by (unfold get_hdr, s1; simpl; rewrite lookup_insert_ne by exact Hne; reflexivity).
  assert (Hk' : Z.of_nat (Z.to_nat k) = k) by (apply Z2Nat.id; lia).
  destruct (memcpy_loop_spec (brk s + HDR) ptr (Z.to_nat k) s1) as (m & Hcp & Hbytes & _);
    [rewrite ?Hk'; unfold W, HDR in *; lia .. |].
  set (s2 := set_mem_s m s1).
  assert (Hb2 : bounds s2) by (unfold bounds, s2, s1; simpl; unfold HDR in *; lia).
  assert (Hh2 : head_inv s2) by (left; unfold s2, s1; simpl; exact Hh).
  assert (Hp : ptr <> NULL) by (unfold NULL, HDR in *; lia).
  assert (Hend : wrap (wrap (ptr - HDR) + size (get_hdr s2 (wrap (ptr - HDR))) + HDR) <> brk s2).
  { rewrite Hw. change (get_hdr s2 (ptr - HDR)) with (get_hdr s1 (ptr - HDR)). rewrite Hg1.
    fold k. rewrite wrap_small by (unfold W, HDR in *; lia).
    unfold s2, s1. simpl. unfold HDR in *; lia. }
  eexists. split; [| split; [| split; [| split; [| split]]]].
  - unfold turealloc. cbv zeta. rewrite Hw.
    replace ((ptr =? NULL) || (n =? 0)) with false
      by (symmetry; apply orb_false_iff; split; apply Z.eqb_neq; unfold NULL, HDR in *; lia).
    unfold bind at 1, read_hdr at 1. fold k.
    replace (n <=? k) with false by (symmetry; apply Z.leb_gt; lia).
    unfold bind at 1. rewrite tumalloc_empty by (auto; lia).
    rewrite do_alloc_exact by (auto; unfold HDR in *; lia).
    replace (brk s + n + HDR <=? brk_limit s) with true by (symmetry; apply Z.leb_le; lia).
    fold s1.
    replace (brk s + HDR =? NULL) with false by (symmetry; apply Z.eqb_neq; unfold NULL, HDR; lia).
    unfold bind at 1, read_hdr. rewrite Hg1. fold k.
    replace (n <? k) with false by (symmetry; apply Z.ltb_ge; lia).
    unfold bind at 1, memcpy. rewrite Hcp. fold s2.
    unfold bind at 1. rewrite (tufree_push_exact (S f) s2 ptr Hb2 Hh2 Hp Hend).
    reflexivity.
  - intros i Hi. unfold read_byte. cbn [mem set_HEAD_s set_hdrs_s].
    unfold s2. cbn [mem set_mem_s].
    rewrite (Hbytes i) by lia. reflexivity.
  - simpl. exact Hw.
  - reflexivity.
  - rewrite Hw. unfold get_hdr. simpl. rewrite lookup_insert_ne by congruence.
    rewrite lookup_insert_eq. reflexivity.
  - rewrite Hw. unfold get_hdr. simpl. rewrite lookup_insert_eq.
    change (hdrs s2) with (hdrs s1). unfold s1. simpl.
    rewrite lookup_insert_ne by congruence. reflexivity.
Qed.

(** X16.  For a request below 2^31 bytes (so [split]'s [int] parameter
    does not truncate it), a non-null result of [tumalloc] is the address
    16 bytes after a header that records at least the requested size; this
    holds from any state whose break and headers lie below 2^63. *)
Theorem tumalloc_block_covers_request fuel s sz p s' :
  addr_ok s -> 0 < sz < 2 ^ 31 -> tumalloc fuel sz s = Some (p, s') -> p <> NULL ->
  sz <= size (get_hdr s' (wrap (p - HDR))).
Proof.
  intros Ha Hsz H Hp. unfold tumalloc in H.
  destruct (Z.eqb_spec sz 0); [lia |].
  step H. prim Hs. exact (tumalloc_loop_covers _ _ _ _ _ _ Ha Hsz H Hp).
Qed.

(** X17.  [coalesce(block)], when no block of the free list ends at [block]
    and the block starting where [block] ends is on the free list, merges
    that successor into [block]: [block]'s size grows by the successor's
    size plus 16, its link becomes the successor's link, [block] is
    returned, and no other header changes. *)
Theorem coalesce_absorbs_successor fuel s block r s' :
  block <> NULL -> 0 <= block -> 0 <= size (get_hdr s block) ->
  block + size (get_hdr s block) + HDR < W ->
  (forall c, c ∈ free_list fuel s -> wrap (c + size (get_hdr s c) + HDR) <> block) ->
  block + size (get_hdr s block) + HDR ∈ free_list fuel s ->
  coalesce fuel block s = Some (r, s') ->
  r = block /\
  get_hdr s' block =
    mk_block (wrap (size (get_hdr s block) +
                    wrap (size (get_hdr s (block + size (get_hdr s block) + HDR)) + HDR)))
             (next (get_hdr s (block + size (get_hdr s block) + HDR))) /\
  (forall a, a <> block -> get_hdr s' a = get_hdr s a).
Proof.
  intros Hb Hb0 Hsz Hend Hnoprev Hin H.
  set (nb := block + size (get_hdr s block) + HDR) in *.
  assert (Hw : wrap nb = nb) by (apply wrap_small; unfold nb, HDR in *; lia).
  assert (Hnb : nb <> block) by (unfold nb, HDR; lia).
  assert (Hnn : nb <> NULL) by (intros E; rewrite E in Hin; exact (list_from_no_null _ _ _ Hin)).
  unfold coalesce in H.
  replace (block =? NULL) with false in H by (symmetry; apply Z.eqb_neq; exact Hb).
  step H. apply find_prev_spec_aux in Hs as [-> [[-> _] | (l1 & l2 & Hl & _ & Hr & _)]].
  2:{ exfalso. apply (Hnoprev x); [| exact Hr]. rewrite Hl.
      apply elem_of_app. right. apply list_elem_of_here. }
  step H. unfold find_next in Hs. step Hs. prim Hs0. step Hs. prim Hs0.
  fold nb in Hs. rewrite Hw in Hs.
  apply find_next_loop_spec in Hs as [-> [[_ Hn] | [-> _]]]; [contradiction |].
  cbv [bind ret] in H. rewrite (Z.eqb_refl NULL) in H.
  replace (nb =? NULL) with false in H by (symmetry; apply Z.eqb_neq; exact Hnn).
  cbv [read_hdr] in H. fold nb in H. rewrite Hw, Z.eqb_refl in H.
  cbv [write_size write_next] in H.
  rewrite (get_hdr_insert_ne _ block _ nb (not_eq_sym Hnb)) in H.
  injection H as <- <-. split; [reflexivity |]. split.
  - unfold get_hdr; cbn [hdrs set_hdrs_s]. rewrite !lookup_insert_eq. reflexivity.
  - intros a Ha. unfold get_hdr; cbn [hdrs set_hdrs_s].
    rewrite !lookup_insert_ne by (intros E; apply Ha; symmetry; exact E).
    reflexivity.
Qed.

(** X18.  Whatever sequence of calls a process makes, the program break
    stays between the heap's base and its limit, and the limit stays at
    most 2^63. *)
Theorem reachable_break_within_limits s :
  reachable s -> 0 < brk_base s <= brk s /\ brk s <= brk_limit s <= 2 ^ 63.
Proof.
  intros Hr. destruct (reachable_inv s Hr) as [(Hb0 & Hb & Hl) _]. lia.
Qed.

(** X19.  For [0 < num * size < 2^31], a non-null result [p] of
    [tucalloc(num, size)] is the address 16 bytes after a header that
    records at least [num * size] bytes ([memset] starts at [p], after the
    header), from any state whose break and headers lie below 2^63. *)
Theorem tucalloc_block_covers_product fuel s num sz p s' :
  addr_ok s -> 0 < num * sz < 2 ^ 31 -> tucalloc fuel num sz s = Some (p, s') ->
  p <> NULL -> num * sz <= size (get_hdr s' (wrap (p - HDR))).
Proof.
  intros Ha Hn H Hp.
  assert (Hm : forall q v n s0 u s1,
             memset_loop q v n s0 = Some (u, s1) -> hdrs s1 = hdrs s0).
  { intros q v n. revert q. induction n as [|n IH]; intros q s0 u s1 E;
      cbn [memset_loop] in E.
    - injection E as _ <-. reflexivity.
    - cbv [bind write_byte] in E. apply IH in E. exact E. }
  unfold tucalloc in H.
  destruct (_ || _); [prim H; contradiction |].
  destruct (_ && _); [prim H; contradiction |].
  rewrite wrap_small in H by (unfold W; lia).
  step H. destruct (x =? NULL) eqn:Ex; [prim H; contradiction |].
  step H. prim H. unfold memset in Hs0. apply Hm in Hs0.
  match goal with |- _ <= size (get_hdr _ ?q) =>
    replace (get_hdr _ q) with (get_hdr s0 q) by (unfold get_hdr; rewrite Hs0; reflexivity)
  end.
  unfold tumalloc in Hs.
  destruct (Z.eqb_spec (num * sz) 0); [lia |].
  step Hs. prim Hs1.
  refine (tumalloc_loop_covers _ _ _ _ _ _ Ha _ Hs _); [lia | congruence].
Qed.

(** ** Instances on sample heaps *)

(** Side conditions on concrete states, by evaluation. *)
Ltac conc := vm_compute; repeat split; congruence.

(** Reachability of a sample heap built from [start] by a client program. *)
Ltac reach :=
  apply reachable_after;
  [apply reach_init; lia
  | repeat constructor; unfold call_ok, W in *; lia
  | vm_compute; discriminate].

Lemma do_alloc_fresh_block_witness :
  do_alloc 16 start =
    if brk start + 16 + HDR <=? brk_limit start
    then Some (brk start + HDR,
               mk_state (HEAD start) (<[brk start := mk_block 16 NULL]> (hdrs start))
                        (mem start) (brk start + 16 + HDR) (brk_base start) (brk_limit start))
    else Some (NULL, start).
Proof. apply do_alloc_fresh_block; conc. Defined.

Lemma do_alloc_size_overflow_witness :
  do_alloc (W - 1) start =
    Some (wrap (brk start + HDR),
          mk_state (HEAD start) (<[brk start := mk_block (W - 1) NULL]> (hdrs start))
                   (mem start) (brk start + (W - 1 + HDR - W)) (brk_base start)
                   (brk_limit start)).
Proof. apply do_alloc_size_overflow; conc. Defined.

Lemma tumalloc_falls_back_to_heap_witness :
  tumalloc 100 100 small_free = do_alloc 100 small_free.
Proof.
  apply (tumalloc_falls_back_to_heap 98 small_free 100).
  - right. vm_compute. reflexivity.
  - lia.
  - right. conc.
Defined.

Lemma tumalloc_reuses_whole_head_witness :
  tumalloc 100 10 small_free = Some (HEAD small_free + HDR, set_HEAD_s NULL small_free).
Proof. apply (tumalloc_reuses_whole_head 99); conc. Defined.

Lemma tumalloc_splits_head_witness :
  tumalloc 100 16 large_free =
    Some (HEAD large_free + HDR,
          mk_state (HEAD large_free + 16 + HDR)
            (<[HEAD large_free + 16 + HDR :=
                 mk_block (size (get_hdr large_free (HEAD large_free)) - 16 - HDR) NULL]>
             (<[HEAD large_free := mk_block 16 NULL]> (hdrs large_free)))
            (mem large_free) (brk large_free) (brk_base large_free) (brk_limit large_free)).
Proof. apply (tumalloc_splits_head 99); conc. Defined.

Lemma split_carves_front_witness :
  split 4096 16 large_free =
    if size (get_hdr large_free 4096) <? 16 + HDR then Some (NULL, large_free)
    else Some (4096, set_hdrs_s
      (<[4096 := mk_block 16 (next (get_hdr large_free 4096))]>
       (<[4096 + 16 + HDR := mk_block (size (get_hdr large_free 4096) - 16 - HDR)
                                      (next (get_hdr large_free 4096))]> (hdrs large_free)))
      large_free).
Proof. apply split_carves_front; conc. Defined.

Lemma tufree_non_trailing_sole_entry_witness :
  tufree 100 4112 two_used =
    Some (tt, set_HEAD_s (wrap (4112 - HDR))
                (set_hdrs_s (<[wrap (4112 - HDR) :=
                   mk_block (size (get_hdr two_used (wrap (4112 - HDR)))) NULL]>
                   (hdrs two_used)) two_used)).
Proof.
  apply tufree_non_trailing_sole_entry.
  - conc.
  - left. vm_compute. reflexivity.
  - conc.
  - conc.
Defined.

Lemma malloc_free_round_trip_witness :
  tumalloc 100 16 start =
    Some (brk start + HDR,
          mk_state NULL (<[brk start := mk_block 16 NULL]> (hdrs start)) (mem start)
                   (brk start + 16 + HDR) (brk_base start) (brk_limit start)) /\
  tufree 100 (brk start + HDR)
    (mk_state NULL (<[brk start := mk_block 16 NULL]> (hdrs start)) (mem start)
              (brk start + 16 + HDR) (brk_base start) (brk_limit start)) =
    Some (tt, mk_state NULL (<[brk start := mk_block 16 NULL]> (hdrs start)) (mem start)
                       (brk start) (brk_base start) (brk_limit start)).
Proof. apply (malloc_free_round_trip 99 99); conc. Defined.

Lemma find_prev_first_predecessor_witness :
  small_free = small_free /\
  ((4096 = NULL /\
    forall c, c ∈ free_list 100 small_free ->
      wrap (c + size (get_hdr small_free c) + HDR) <> 4128) \/
   (exists l1 l2, free_list 100 small_free = l1 ++ 4096 :: l2 /\ 4096 <> NULL /\
      wrap (4096 + size (get_hdr small_free 4096) + HDR) = 4128 /\
      forall c, c ∈ l1 -> wrap (c + size (get_hdr small_free c) + HDR) <> 4128)).
Proof. apply find_prev_first_predecessor. vm_compute. reflexivity. Defined.

Lemma find_next_adjacent_successor_witness :
  middle_free = middle_free /\
  ((4128 = NULL /\
    wrap (4096 + size (get_hdr middle_free 4096) + HDR) ∉ free_list 100 middle_free) \/
   (4128 = wrap (4096 + size (get_hdr middle_free 4096) + HDR) /\
    4128 ∈ free_list 100 middle_free)).
Proof. apply find_next_adjacent_successor. vm_compute. reflexivity. Defined.

Lemma remove_free_block_unlinks_witness :
  (HEAD small_free = 4096 /\
   final_state (remove_free_block 100 4096) small_free =
     set_HEAD_s (next (get_hdr small_free 4096)) small_free) \/
  (HEAD small_free <> 4096 /\
   final_state (remove_free_block 100 4096) small_free = small_free /\
   forall c, c ∈ free_list 100 small_free -> next (get_hdr small_free c) <> 4096) \/
  (HEAD small_free <> 4096 /\
   exists l1 c l2, free_list 100 small_free = l1 ++ c :: l2 /\
     (forall c', c' ∈ l1 -> next (get_hdr small_free c') <> 4096) /\
     next (get_hdr small_free c) = 4096 /\
     final_state (remove_free_block 100 4096) small_free =
       set_hdrs_s (<[c := mk_block (size (get_hdr small_free c))
                                   (next (get_hdr small_free 4096))]> (hdrs small_free))
                  small_free).
Proof.
  apply (remove_free_block_unlinks 100 4096 small_free tt).
  vm_compute. reflexivity.
Defined.

Lemma tucalloc_clears_elem_size_bytes_witness :
  read_byte (final_state (tucalloc 100 4 4) start) 4113 = 0.
Proof.
  apply (tucalloc_clears_elem_size_bytes 100 4 4 start 4112).
  - vm_compute. reflexivity.
  - conc.
  - conc.
  - lia.
Defined.

Lemma turealloc_grow_copies_witness :
  exists s', turealloc 100 4112 32 stored_block = Some (brk stored_block + HDR, s') /\
    (forall i, 0 <= i < size (get_hdr stored_block (4112 - HDR)) ->
       read_byte s' (brk stored_block + HDR + i) = read_byte stored_block (4112 + i)) /\
    HEAD s' = 4112 - HDR /\ brk s' = brk stored_block + 32 + HDR /\
    get_hdr s' (brk stored_block) = mk_block 32 NULL /\
    get_hdr s' (4112 - HDR) = mk_block (size (get_hdr stored_block (4112 - HDR))) NULL.
Proof. apply (turealloc_grow_copies 99); conc. Defined.

Lemma tumalloc_block_covers_request_witness :
  16 <= size (get_hdr (final_state (tumalloc 100 16) start) (wrap (4112 - HDR))).
Proof.
  apply (tumalloc_block_covers_request 100 start 16 4112).
  - apply addr_okb_sound. vm_compute. reflexivity.
  - conc.
  - vm_compute. reflexivity.
  - conc.
Defined.

Lemma coalesce_absorbs_successor_witness :
  4096 = 4096 /\
  get_hdr (final_state (coalesce 100 4096) middle_free) 4096 =
    mk_block (wrap (size (get_hdr middle_free 4096) +
                    wrap (size (get_hdr middle_free
                                 (4096 + size (get_hdr middle_free 4096) + HDR)) + HDR)))
             (next (get_hdr middle_free (4096 + size (get_hdr middle_free 4096) + HDR))) /\
  (forall a, a <> 4096 ->
     get_hdr (final_state (coalesce 100 4096) middle_free) a = get_hdr middle_free a).
Proof.
  assert (E : free_list 100 middle_free = [4128]) by (vm_compute; reflexivity).
  apply (coalesce_absorbs_successor 100 middle_free 4096 4096).
  - conc.
  - conc.
  - conc.
  - conc.
  - intros c Hc. rewrite E in Hc. apply elem_of_cons in Hc as [-> | Hc].
    + conc.
    + exfalso. exact (not_elem_of_nil _ Hc).
  - rewrite E. replace (4096 + size (get_hdr middle_free 4096) + HDR) with 4128
      by (vm_compute; reflexivity).
    apply list_elem_of_here.
  - vm_compute. reflexivity.
Defined.

Lemma reachable_break_within_limits_witness :
  0 < brk_base small_free <= brk small_free /\
  brk small_free <= brk_limit small_free <= 2 ^ 63.
Proof. apply reachable_break_within_limits. unfold small_free. reach. Defined.

Lemma tucalloc_block_covers_product_witness :
  2 * 8 <= size (get_hdr (final_state (tucalloc 100 2 8) start) (wrap (4112 - HDR))).
Proof.
  apply (tucalloc_block_covers_product 100 start 2 8 4112).
  - apply addr_okb_sound. vm_compute. reflexivity.
  - lia.
  - vm_compute. reflexivity.
  - conc.
Defined.

End Extras.
